(** * WebFetcher: the link-details engine of [server.js]

    A shallow embedding of [getPageContent], [getStatusColor],
    [processLink] and the [/link-details] route, with the properties of
    the link validation and classification engine.

    Modelling conventions.
    - A JavaScript value that is [undefined] or a string is an
      [option string]; [truthy] and [or_default] give [if (x)] and
      [x || ''] on such values. Strings hold UTF-8.
    - A parsed page is the forest of its nodes ([Document]); cheerio's
      [$('a').toArray()] is the list of [a] elements in document order.
      What [cheerio.load] makes of a serialised part of the page is given
      with the page.
    - [await axios.get(href)] inside [try]/[catch] is a node [AxiosGet href k]
      of the [Async] tree: the continuation [k] receives how the request
      settled, a response ([Resolved]) or a thrown error ([Rejected]) that
      may carry a response.
    - [Promise.all] keeps a [values] array filled by position and a counter
      of the promises still to settle; the network chooses the order in
      which the pending requests settle, and every request sent is
      recorded. *)

From Stdlib Require Import Ascii.
From stdpp Require Import gmap strings list.

(** ** JavaScript values *)

Module Js.

(** [if (x)] for [x] undefined or a string: the empty string is falsy. *)
Definition truthy (x : option string) : bool :=
  match x with
  | Some (String _ _) => true
  | _ => false
  end.

(** [x || d] for [x] undefined or a string. *)
Definition or_default (x : option string) (d : string) : string :=
  match x with
  | Some (String a s) => String a s
  | _ => d
  end.

(** [x !== y] for [x] undefined or a string and [y] a string. *)
Definition strict_ne (x : option string) (y : string) : bool :=
  match x with
  | Some s => bool_decide (s ≠ y)
  | None => true
  end.

(** [s.includes(sub)]: [sub] occurs in [s] as a substring. *)
Fixpoint includes (s sub : string) : bool :=
  String.prefix sub s ||
  match s with
  | "" => false
  | String _ s' => includes s' sub
  end.

(** White space. Strings hold UTF-8, so the white space and the line
    terminators of JavaScript (what [trim] removes and [\s] matches) are
    sequences of one to three bytes:
    U+0009 to U+000D and U+0020 (one byte); U+00A0 (C2 A0);
    U+1680 (E1 9A 80); U+2000 to U+200A (E2 80 80 to E2 80 8A);
    U+2028, U+2029, U+202F (E2 80 A8, E2 80 A9, E2 80 AF);
    U+205F (E2 81 9F); U+3000 (E3 80 80); U+FEFF (EF BB BF). *)
Definition white1 (a : ascii) : bool := Ascii.is_space a.

Definition white2 (a b : ascii) : bool :=
  ((N_of_ascii a =? 194) && (N_of_ascii b =? 160))%N.

Definition white3 (a b c : ascii) : bool :=
  let x := N_of_ascii a in
  let y := N_of_ascii b in
  let z := N_of_ascii c in
  ((x =? 225) && (y =? 154) && (z =? 128)
   || (x =? 226) && (y =? 128) &&
      ((128 <=? z) && (z <=? 138) || (z =? 168) || (z =? 169) || (z =? 175))
   || (x =? 226) && (y =? 129) && (z =? 159)
   || (x =? 227) && (y =? 128) && (z =? 128)
   || (x =? 239) && (y =? 187) && (z =? 191))%N.

(** The same sequences read from the end of a string. *)
Definition white2_back (a b : ascii) : bool := white2 b a.
Definition white3_back (a b c : ascii) : bool := white3 c b a.

(** [s] starts with one of the sequences [w1], [w2], [w3]. *)
Definition starts_with (w1 : ascii → bool) (w2 : ascii → ascii → bool)
    (w3 : ascii → ascii → ascii → bool) (s : string) : bool :=
  match s with
  | String a s1 =>
      w1 a ||
      match s1 with
      | String b s2 =>
          w2 a b ||
          match s2 with
          | String c _ => w3 a b c
          | "" => false
          end
      | "" => false
      end
  | "" => false
  end.

(** Removes the sequences [w1], [w2], [w3] from the front of [s], as long
    as there is one. *)
Fixpoint strip_front (w1 : ascii → bool) (w2 : ascii → ascii → bool)
    (w3 : ascii → ascii → ascii → bool) (s : string) : string :=
  match s with
  | String a s1 =>
      if w1 a then strip_front w1 w2 w3 s1
      else
        match s1 with
        | String b s2 =>
            if w2 a b then strip_front w1 w2 w3 s2
            else
              match s2 with
              | String c s3 =>
                  if w3 a b c then strip_front w1 w2 w3 s3 else s
              | "" => s
              end
        | "" => s
        end
  | "" => ""
  end.

Definition trimStart (s : string) : string :=
  strip_front white1 white2 white3 s.

Definition trimEnd (s : string) : string :=
  String.rev (strip_front white1 white2_back white3_back (String.rev s)).

(** [s.trim()] *)
Definition trim (s : string) : string := trimEnd (trimStart s).

(** [s.split(/\s/)]: the pieces of [s] between white space; [cur] is the
    piece being read, last byte first. *)
Fixpoint split_space (cur s : string) : list string :=
  match s with
  | "" => [String.rev cur]
  | String a s1 =>
      if white1 a then String.rev cur :: split_space "" s1
      else
        match s1 with
        | String b s2 =>
            if white2 a b then String.rev cur :: split_space "" s2
            else
              match s2 with
              | String c s3 =>
                  if white3 a b c then String.rev cur :: split_space "" s3
                  else split_space (String a cur) s1
              | "" => split_space (String a cur) s1
              end
        | "" => split_space (String a cur) s1
        end
  end.

End Js.

(** ** The document tree *)

#[warnings="-register-all"]
Inductive Node : Type :=
| Text (data : string)
| Element (tagName : string) (attribs : gmap string string)
    (children : list Node).

Abbreviation Document := (list Node).

Module Cheerio.

(** [$(el).attr(name)] *)
Definition attr (name : string) (el : Node) : option string :=
  match el with
  | Element _ attribs _ => attribs !! name
  | Text _ => None
  end.

(** [$(el).text()]: the text of the descendants, in document order. *)
Fixpoint text (el : Node) : string :=
  match el with
  | Text data => data
  | Element _ _ children =>
      (fix text_all (l : list Node) : string :=
         match l with
         | [] => ""
         | n :: l' => text n +:+ text_all l'
         end) children
  end.

Definition children_of (el : Node) : list Node :=
  match el with
  | Element _ _ children => children
  | Text _ => []
  end.

(** [$(selector).toArray()] for a selector that looks at one element:
    the matching elements of the subtree, in document order. *)
Fixpoint select_node (matches : Node → bool) (n : Node) : list Node :=
  match n with
  | Text _ => []
  | Element _ _ children =>
      (if matches n then [n] else []) ++
      (fix select_all (l : list Node) : list Node :=
         match l with
         | [] => []
         | c :: l' => select_node matches c ++ select_all l'
         end) children
  end.

Definition select (matches : Node → bool) (doc : Document) : list Node :=
  flat_map (select_node matches) doc.

(** The selector ['a']. *)
Definition is_tag (tag : string) (n : Node) : bool :=
  match n with
  | Element t _ _ => bool_decide (t = tag)
  | Text _ => false
  end.

(** The class part of a selector, for a class name [cls] without white
    space: [cls] stands in the [class] attribute between white space or
    the ends of the string (the test [(?:^|\s)cls(?:$|\s)]). *)
Definition has_class (cls : string) (n : Node) : bool :=
  match attr "class" n with
  | Some v => bool_decide (cls ∈ Js.split_space "" v)
  | None => false
  end.

(** [$(el).html()] is the empty string: [el] contains no element and no
    text. *)
Definition html_is_empty (content : list Node) : bool :=
  forallb (λ n, match n with Text "" => true | _ => false end) content.

(** The document [cheerio.load] builds around [nodes]: [html], an empty
    [head], and a [body] that holds them. *)
Definition wrap (nodes : list Node) : Document :=
  [Element "html" ∅ [Element "head" ∅ []; Element "body" ∅ nodes]].

(** [cheerio.load('')] *)
Definition empty_document : Document := wrap [].

End Cheerio.

(** ** Probes and link records *)

(** What the code reads of an axios response that carries its request:
    [response.status] and [response.request.res.responseUrl], the URL
    reached after the redirects, which the transport of axios under Node
    sets on every response it receives. *)
Record Response : Type := {
  status : Z;
  responseUrl : string;
}.

(** A thrown error; [response] is [error.response], undefined when the
    request got no response at all. *)
Record AxiosError : Type := {
  response : option Response;
}.

(** How [axios.get(href)] settles. [ResolvedWithoutRequest] is the response
    axios builds itself, without any request, for a [data:] URL: its
    status is 200 and it has no [request], so reading
    [response.request.res] throws a [TypeError]. *)
Inductive Settled : Type :=
| Resolved (r : Response)
| Rejected (e : AxiosError)
| ResolvedWithoutRequest.

Record LinkRecord : Type := {
  linkType : string;
  linkText : string;
  ariaLabel : string;
  url : option string;
  redirectedUrl : string;
  statusCode : Z;
  target : string;
  statusColor : string;
  originalUrlColor : string;
  redirectedUrlColor : string;
}.

Definition set_statusCode (v : Z) (d : LinkRecord) : LinkRecord :=
  {| linkType := linkType d; linkText := linkText d; ariaLabel := ariaLabel d;
     url := url d; redirectedUrl := redirectedUrl d; statusCode := v;
     target := target d; statusColor := statusColor d;
     originalUrlColor := originalUrlColor d;
     redirectedUrlColor := redirectedUrlColor d |}.

Definition set_redirectedUrl (v : string) (d : LinkRecord) : LinkRecord :=
  {| linkType := linkType d; linkText := linkText d; ariaLabel := ariaLabel d;
     url := url d; redirectedUrl := v; statusCode := statusCode d;
     target := target d; statusColor := statusColor d;
     originalUrlColor := originalUrlColor d;
     redirectedUrlColor := redirectedUrlColor d |}.

Definition set_statusColor (v : string) (d : LinkRecord) : LinkRecord :=
  {| linkType := linkType d; linkText := linkText d; ariaLabel := ariaLabel d;
     url := url d; redirectedUrl := redirectedUrl d;
     statusCode := statusCode d; target := target d; statusColor := v;
     originalUrlColor := originalUrlColor d;
     redirectedUrlColor := redirectedUrlColor d |}.

Definition set_urlColors (o r : string) (d : LinkRecord) : LinkRecord :=
  {| linkType := linkType d; linkText := linkText d; ariaLabel := ariaLabel d;
     url := url d; redirectedUrl := redirectedUrl d;
     statusCode := statusCode d; target := target d;
     statusColor := statusColor d;
     originalUrlColor := o; redirectedUrlColor := r |}.

(** ** Asynchronous computations *)

Inductive Async (A : Type) : Type :=
| Return (a : A)
| Throw (reason : string)
| AxiosGet (href : string) (k : Settled → Async A).

Arguments Return {A} a.
Arguments Throw {A} reason.
Arguments AxiosGet {A} href k.

(** The request a computation is waiting for, if any. *)
Definition awaiting {A} (m : Async A) : option string :=
  match m with
  | AxiosGet href _ => Some href
  | _ => None
  end.

(** The computation after its pending request settled with [s]; a
    computation that waits for nothing is left as it is. *)
Definition resume {A} (m : Async A) (s : Settled) : Async A :=
  match m with
  | AxiosGet _ k => k s
  | _ => m
  end.

(** ** [server.js] *)

Definition getStatusColor (statusCode : Z) : string :=
  if decide (500 ≤ statusCode)%Z then "red"
  else if decide (400 ≤ statusCode)%Z then "orange"
  else if decide (300 ≤ statusCode)%Z then "yellow"
  else "green".

Definition processLink (link : Node) : Async LinkRecord :=
  let href := Cheerio.attr "href" link in
  let text := Js.trim (Cheerio.text link) in
  let ariaLabel := Cheerio.attr "aria-label" link in
  let target := Cheerio.attr "target" link in
  let classNames := Js.or_default (Cheerio.attr "class" link) "" in
  let linkType :=
    if Js.includes classNames "cta" then "cta"
    else if Js.includes classNames "button" then "button"
    else if Js.includes classNames "link" then "link"
    else "unknown" in
  let linkDetails :=
    {| linkType := linkType;
       linkText := text;
       ariaLabel := Js.or_default ariaLabel "";
       url := href;
       redirectedUrl := "";
       statusCode := 200;
       target := Js.or_default target "";
       statusColor := "green";
       originalUrlColor := "";
       redirectedUrlColor := "" |} in
  if Js.truthy href then
    AxiosGet (default "" href) (λ settled,
      match settled with
      | Resolved response =>
          let linkDetails := set_statusCode (status response) linkDetails in
          let linkDetails :=
            set_redirectedUrl (responseUrl response) linkDetails in
          let linkDetails :=
            set_statusColor (getStatusColor (status response)) linkDetails in
          if Js.strict_ne href (redirectedUrl linkDetails)
          then Return (set_urlColors "blue" "purple" linkDetails)
          else Return linkDetails
      | Rejected error =>
          match response error with
          | Some error_response =>
              let linkDetails :=
                set_statusCode (status error_response) linkDetails in
              Return (set_statusColor
                        (getStatusColor (status error_response)) linkDetails)
          | None => Return linkDetails
          end
      | ResolvedWithoutRequest =>
          (* line 70 stores the status; line 71 throws inside the [try],
             and the error caught has no [response] *)
          let linkDetails := set_statusCode 200 linkDetails in
          Return linkDetails
      end)
  else Return linkDetails.

(** The page as [axios.get(url)] delivered it to [getPageContent]: its
    parsed tree [data], or a failure of the request or of the parser.
    [reload content] is the document that [cheerio.load] builds from the
    HTML text of [content] ([$(el).html()]): parsing again what was
    serialised need not give the same nodes back. *)
Inductive PageFetch : Type :=
| PageData (data : Document) (reload : list Node → Document)
| PageFailed (message : string).

(** [getPageContent]; [None] is the [null] of the [catch] branch. Without
    [includeUhf] the content of the first
    [main.microsoft-template-layout-container] is serialised and loaded
    again; the empty string stands in when there is none. *)
Definition getPageContent (fetched : PageFetch) (includeUhf : bool)
  : option Document :=
  match fetched with
  | PageData data reload =>
      if negb includeUhf then
        let primaryArea :=
          Cheerio.select
            (λ n, Cheerio.is_tag "main" n &&
                  Cheerio.has_class "microsoft-template-layout-container" n)
            data in
        let primaryAreaContent :=
          from_option Cheerio.children_of [] (head primaryArea) in
        if Cheerio.html_is_empty primaryAreaContent
        then Some Cheerio.empty_document
        else Some (reload primaryAreaContent)
      else Some data
  | PageFailed _ => None
  end.

(** ** [Promise.all] over the probes in flight *)

Module PromiseAll.

(** [tasks] are the calls of [processLink] as they stand, [values],
    [remaining] and [rejection] what [Promise.all] holds, and [requested]
    the hrefs passed to [axios.get] so far, in the order of the calls. *)
Record State : Type := {
  tasks : list (Async LinkRecord);
  values : list (option LinkRecord);
  remaining : nat;
  rejection : option string;
  requested : list string;
}.

(** The reaction of [Promise.all] to the promise at [index], which has
    become [m]: a fulfilled promise stores its value at its own position,
    a rejected one rejects the whole (the first rejection is kept). *)
Definition notify (index : nat) (m : Async LinkRecord) (st : State) : State :=
  match m with
  | Return v =>
      {| tasks := tasks st;
         values := <[index := Some v]> (values st);
         remaining := pred (remaining st);
         rejection := rejection st;
         requested := requested st |}
  | Throw reason =>
      {| tasks := tasks st;
         values := values st;
         remaining := remaining st;
         rejection := Some (default reason (rejection st));
         requested := requested st |}
  | AxiosGet _ _ => st
  end.

(** [linkElements.map(link => processLink(link, $))] followed by
    [Promise.all(linkPromises)]: every call runs up to its request, which
    is sent, and the promises that are already settled are taken in
    order. *)
Definition start (linkPromises : list (Async LinkRecord)) : State :=
  foldl (λ st im, notify im.1 im.2 st)
    {| tasks := linkPromises;
       values := replicate (length linkPromises) None;
       remaining := length linkPromises;
       rejection := None;
       requested := omap awaiting linkPromises |}
    (imap pair linkPromises).

(** The request of the promise at [index] settles with [s]: the call goes
    on, up to its end or to its next request, which is sent. *)
Definition settle (index : nat) (s : Settled) (st : State) : State :=
  match tasks st !! index with
  | Some (AxiosGet _ k) =>
      let m := k s in
      notify index m
        {| tasks := <[index := m]> (tasks st);
           values := values st;
           remaining := remaining st;
           rejection := rejection st;
           requested := requested st ++ option_list (awaiting m) |}
  | _ => st
  end.

Inductive Result : Type :=
| Fulfilled (results : list LinkRecord)
| RejectedWith (reason : string)
| Pending.

Definition result (st : State) : Result :=
  match rejection st with
  | Some reason => RejectedWith reason
  | None =>
      match remaining st with
      | O => Fulfilled (omap id (values st))
      | S _ => Pending
      end
  end.

(** The probes settle in the order [order], the one of the promise at
    position [i] with [network i]. *)
Definition finish (linkPromises : list (Async LinkRecord))
    (network : nat → Settled) (order : list nat) : State :=
  foldl (λ st i, settle i (network i) st) (start linkPromises) order.

Definition run (linkPromises : list (Async LinkRecord))
    (network : nat → Settled) (order : list nat) : Result :=
  result (finish linkPromises network order).

End PromiseAll.

(** ** The route [/link-details] *)

Inductive Body : Type :=
| Plain (message : string)
| Links (links : list LinkRecord).

Inductive Reply : Type :=
| Sent (status : Z) (body : Body)
| Unhandled (reason : string)
| NoReply.

(** One run of the route: what is sent back, and the probes requested on
    the way (the hrefs passed to [axios.get] by the calls of [processLink]). *)
Record Run : Type := {
  reply : Reply;
  probes : list string;
}.

Definition link_details (fetched : PageFetch) (includeUhf : bool)
    (network : nat → Settled) (order : list nat) : Run :=
  match getPageContent fetched includeUhf with
  | None =>
      {| reply := Sent 500 (Plain "Failed to fetch page content.");
         probes := [] |}
  | Some doc =>
      let linkElements := Cheerio.select (Cheerio.is_tag "a") doc in
      let linkPromises := processLink <$> linkElements in
      {| reply :=
           match PromiseAll.run linkPromises network order with
           | PromiseAll.Fulfilled results => Sent 200 (Links results)
           | PromiseAll.RejectedWith reason => Unhandled reason
           | PromiseAll.Pending => NoReply
           end;
         probes :=
           PromiseAll.requested
             (PromiseAll.finish linkPromises network order) |}
  end.

(** [JSON.stringify] of a record, as [res.json] sends it: a property whose
    value is [undefined] is left out. *)
Inductive Json : Type :=
| JString (s : string)
| JNumber (n : Z).

Definition to_json (d : LinkRecord) : list (string * Json) :=
  [("linkType", JString (linkType d));
   ("linkText", JString (linkText d));
   ("ariaLabel", JString (ariaLabel d))] ++
  from_option (λ u, [("url", JString u)]) [] (url d) ++
  [("redirectedUrl", JString (redirectedUrl d));
   ("statusCode", JNumber (statusCode d));
   ("target", JString (target d));
   ("statusColor", JString (statusColor d));
   ("originalUrlColor", JString (originalUrlColor d));
   ("redirectedUrlColor", JString (redirectedUrlColor d))].

(** ** The classification as the specification words it *)

Module Spec.

(** The tokens of a space-separated string. *)
Fixpoint tokens (s : string) : list string :=
  match s with
  | "" => [""]
  | String a s' =>
      if bool_decide (a = " "%char) then "" :: tokens s'
      else match tokens s' with
           | t :: ts => String a t :: ts
           | [] => [String a ""]
           end
  end.

(** Role classification by token membership, first match wins. *)
Definition linkType_by_tokens (classNames : string) : string :=
  if bool_decide ("cta" ∈ tokens classNames) then "cta"
  else if bool_decide ("button" ∈ tokens classNames) then "button"
  else if bool_decide ("link" ∈ tokens classNames) then "link"
  else "unknown".

End Spec.

(** [sub] occurs in [s]. *)
Definition occurs_in (sub s : string) : Prop :=
  ∃ pre post, s = pre +:+ sub +:+ post.

(** A computation that never rejects, however its requests settle. *)
Fixpoint no_throw {A} (m : Async A) : Prop :=
  match m with
  | Return _ => True
  | Throw _ => False
  | AxiosGet _ k => ∀ s, no_throw (k s)
  end.

(** A computation that ends in a value after at most one request. *)
Definition one_shot {A} (m : Async A) : Prop :=
  ∀ s, ∃ a, resume m s = Return a.

(** The value of a fulfilled promise. *)
Definition fulfilled_value {A} (m : Async A) : option A :=
  match m with
  | Return a => Some a
  | _ => None
  end.

(** The number of promises that are not fulfilled. *)
Fixpoint unsettled {A} (ms : list (Async A)) : nat :=
  match ms with
  | [] => 0
  | Return _ :: ms' => unsettled ms'
  | _ :: ms' => S (unsettled ms')
  end.

(** What [Promise.all] holds when its promises stand as [ms], none was
    rejected and the requests [requests] were sent. *)
Definition observed (requests : list string) (ms : list (Async LinkRecord))
  : PromiseAll.State :=
  {| PromiseAll.tasks := ms;
     PromiseAll.values := fulfilled_value <$> ms;
     PromiseAll.remaining := unsettled ms;
     PromiseAll.rejection := None;
     PromiseAll.requested := requests |}.

(** The promises after the probes settled in the order [order]. *)
Definition settle_all (network : nat → Settled) (order : list nat)
    (ms : list (Async LinkRecord)) : list (Async LinkRecord) :=
  foldl (λ ms i, alter (λ m, resume m (network i)) i ms) ms order.

(** Every probe requested for the anchors [linkElements] settles at some
    point of [order]. *)
Definition every_probe_settles (order : list nat) (linkElements : list Node)
  : Prop :=
  ∀ i link,
    linkElements !! i = Some link →
    Js.truthy (Cheerio.attr "href" link) = true → i ∈ order.

(** ** Inputs used below *)

Module Inputs.

(** [<a href="https://x/missing">Missing</a>], answered with 404. *)
Definition anchor_missing : Node :=
  Element "a" {[ "href" := "https://x/missing" ]} [Text "Missing"].

Definition not_found : Settled :=
  Rejected {| response :=
    Some {| status := 404; responseUrl := "https://x/missing" |} |}.

(** [<a href="https://x/down">Down</a>], whose probe gets no response. *)
Definition anchor_down : Node :=
  Element "a" {[ "href" := "https://x/down" ]} [Text "Down"].

Definition unreachable : Settled := Rejected {| response := None |}.

(** [<a class="c-hyperlink">More</a>] *)
Definition anchor_hyperlink : Node :=
  Element "a" {[ "class" := "c-hyperlink" ]} [Text "More"].

(** [<a class="button" href="https://x/moved"> Go </a>], redirected. *)
Definition anchor_moved : Node :=
  Element "a" {[ "class" := "button"; "href" := "https://x/moved" ]}
    [Text " Go "].

Definition moved : Settled :=
  Resolved {| status := 200; responseUrl := "https://x/new" |}.

(** [<a class="cta" href="https://x/ok">Go</a>], answered with 200. *)
Definition anchor_ok : Node :=
  Element "a" {[ "class" := "cta"; "href" := "https://x/ok" ]} [Text "Go"].

Definition ok : Settled :=
  Resolved {| status := 200; responseUrl := "https://x/ok" |}.

(** [<a href="data:text/plain,hi">Note</a>], answered by axios itself. *)
Definition anchor_data : Node :=
  Element "a" {[ "href" := "data:text/plain,hi" ]} [Text "Note"].

(** [<a name="top"></a>]: no href. *)
Definition anchor_named : Node := Element "a" {[ "name" := "top" ]} [].

(** A page with three anchors, two of them inside the primary area. *)
Definition page : Document :=
  [Element "html" ∅
     [Element "body" ∅
        [Element "header" ∅ [anchor_named];
         Element "main"
           {[ "class" := "wrap microsoft-template-layout-container" ]}
           [Element "p" ∅ [anchor_moved; Text " or "; anchor_down]]]]].

(** The first probe is redirected, the others get no response. *)
Definition network_mixed (i : nat) : Settled :=
  match i with
  | 0 => moved
  | _ => unreachable
  end.

(** No probe gets a response. *)
Definition network_down (i : nat) : Settled := unreachable.

End Inputs.

(** ** The routes beside [/link-details] *)

(** What a route sends: [res.status(status).send(message)], or
    [res.json(payload)]. *)
Inductive Answer (A : Type) : Type :=
| Failure (status : Z) (message : string)
| Success (payload : A).

Arguments Failure {A} status message.
Arguments Success {A} payload.

Module JsOps.

(** [a || b] for [a] and [b] undefined or a string. *)
Definition or_else (a b : option string) : option string :=
  if Js.truthy a then a else b.

(** [s.startsWith(pre)] *)
Definition startsWith (s pre : string) : bool := String.prefix pre s.

End JsOps.

Module Selector.

(** The attribute part [[name]] of a selector. *)
Definition has_attr (name : string) (n : Node) : bool :=
  bool_decide (is_Some (Cheerio.attr name n)).

(** ['a[href]'] *)
Definition a_href (n : Node) : bool :=
  Cheerio.is_tag "a" n && has_attr "href" n.

(** ['h1, h2, h3, h4, h5, h6'] *)
Definition heading (n : Node) : bool :=
  Cheerio.is_tag "h1" n || Cheerio.is_tag "h2" n || Cheerio.is_tag "h3" n ||
  Cheerio.is_tag "h4" n || Cheerio.is_tag "h5" n || Cheerio.is_tag "h6" n.

(** ['main.microsoft-template-layout-container'] *)
Definition primary_area (n : Node) : bool :=
  Cheerio.is_tag "main" n &&
  Cheerio.has_class "microsoft-template-layout-container" n.

(** [element.tagName]; a text node has none. *)
Definition tagName_of (n : Node) : string :=
  match n with
  | Element tagName _ _ => tagName
  | Text _ => ""
  end.

End Selector.

(** [/extract-urls] *)
Definition extract_urls (fetched : PageFetch) (includeUhf : bool)
  : Answer (list string) :=
  match getPageContent fetched includeUhf with
  | None => Failure 500 "Failed to fetch page content."
  | Some doc =>
      let urls :=
        filter (λ href, JsOps.startsWith href "http")
          (omap (Cheerio.attr "href") (Cheerio.select Selector.a_href doc)) in
      Success urls
  end.

(** [/image-details] *)
Record Image : Type := {
  imageName : string;
  alt : string;
  hasAlt : bool;
}.

(** The body of the [each] callback: the entry pushed for one [img], if any. *)
Definition image_entry (element : Node) : option Image :=
  let src := Cheerio.attr "src" element in
  if Js.truthy src then
    let alt := Cheerio.attr "alt" element in
    Some {| imageName := default "" src;
            alt := Js.or_default alt "No Alt Text";
            hasAlt := Js.truthy alt |}
  else None.

Definition image_details (fetched : PageFetch) (includeUhf : bool)
  : Answer (list Image) :=
  match getPageContent fetched includeUhf with
  | None => Failure 500 "Failed to fetch page content."
  | Some doc =>
      let images := omap image_entry (Cheerio.select (Cheerio.is_tag "img") doc) in
      Success images
  end.

(** [/page-properties] *)
Record MetaTag : Type := {
  name : string;
  content : string;
}.

Definition meta_entry (meta : Node) : option MetaTag :=
  let name := Cheerio.attr "name" meta in
  let property := Cheerio.attr "property" meta in
  let content := Cheerio.attr "content" meta in
  if Js.truthy (JsOps.or_else name property) then
    Some {| name := default "" (JsOps.or_else name property);
            content := Js.or_default content "No Content" |}
  else None.

(** Nothing in the [try] block throws ([getPageContent] catches its own
    errors), so the [catch] branch with "Internal Server Error" is not
    taken. *)
Definition page_properties (fetched : PageFetch) (includeUhf : bool)
  : Answer (list MetaTag) :=
  match getPageContent fetched includeUhf with
  | None => Failure 500 "Failed to fetch page content."
  | Some doc =>
      let metaTags := omap meta_entry (Cheerio.select (Cheerio.is_tag "meta") doc) in
      Success metaTags
  end.

(** [/heading-hierarchy] *)
Record Heading : Type := {
  level : string;
  text : string;
}.

Definition heading_entry (heading : Node) : Heading :=
  {| level := Selector.tagName_of heading;
     text := Js.trim (Cheerio.text heading) |}.

Definition heading_hierarchy (fetched : PageFetch) (includeUhf : bool)
  : Answer (list Heading) :=
  match getPageContent fetched includeUhf with
  | None => Failure 500 "Failed to fetch page content."
  | Some doc =>
      let headings := heading_entry <$> Cheerio.select Selector.heading doc in
      Success headings
  end.

(** [s] starts, or ends, with white space. *)
Definition starts_with_space (s : string) : bool :=
  Js.starts_with Js.white1 Js.white2 Js.white3 s.

Definition ends_with_space (s : string) : bool :=
  Js.starts_with Js.white1 Js.white2_back Js.white3_back (String.rev s).

(** The no-break space U+00A0. *)
Definition nbsp : string :=
  String (ascii_of_N 194) (String (ascii_of_N 160) "").

(** A document for the routes: an image without alt, one with alt, one
    without src; meta tags by name and by property; headings; links of
    which one is relative. *)
Module Pages.

Definition article : Document :=
  [Element "html" ∅
     [Element "head" ∅
        [Element "meta" {[ "name" := "description"; "content" := "About" ]} [];
         Element "meta" {[ "property" := "og:title" ]} [];
         Element "meta" {[ "charset" := "utf-8" ]} []];
      Element "body" ∅
        [Element "h1" ∅ [Text " Title "];
         Element "img" {[ "src" := "a.png" ]} [];
         Element "img" {[ "src" := "b.png"; "alt" := "B" ]} [];
         Element "img" {[ "alt" := "lost" ]} [];
         Element "h2" ∅ [Text "Part"; Element "a" {[ "href" := "/rel" ]} [Text "x"]];
         Element "a" {[ "href" := "https://x/ok" ]} [Text "ok"];
         Element "a" {[ "name" := "top" ]} []]]].

End Pages.

(** ** Proof steps *)

(** Opens [processLink link] along the paths of the code, for a probe that
    settled with [s]. *)
Ltac processLink_paths link s :=
  unfold processLink;
  destruct (Js.truthy (Cheerio.attr "href" link)) eqn:Hhref;
  cbn [resume awaiting no_throw];
  [ destruct s as [resp|[[resp|]]|]; cbn [response];
    [ destruct (Js.strict_ne _ _) eqn:Hne | | | ] | ].

(** Reads the fields of a record that [processLink] updated. *)
Ltac record_fields :=
  cbn [linkType linkText ariaLabel url redirectedUrl statusCode target
       statusColor originalUrlColor redirectedUrlColor
       set_urlColors set_statusColor set_redirectedUrl set_statusCode] in *.

(** * Properties *)

(** ** Strings *)

Section strings.

Lemma app_cons (a : ascii) (s t : string) :
  String a s +:+ t = String a (s +:+ t).
Proof. reflexivity. Qed.

Lemma app_empty (t : string) : "" +:+ t = t.
Proof. reflexivity. Qed.

Lemma prefix_app (sub s : string) :
  String.prefix sub s = true ↔ ∃ post, s = sub +:+ post.
Proof.
  revert s. induction sub as [|a sub IH]; intros s; simpl.
  - split; [intros _; by exists s | by destruct s].
  - destruct s as [|b s]; simpl.
    + split; [done | by intros [post ?]].
    + destruct (Ascii.ascii_dec a b) as [->|Hne].
      * rewrite IH. split; intros [post Hp]; exists post.
        -- by rewrite app_cons, <-Hp.
        -- rewrite app_cons in Hp. by simplify_eq.
      * split; [done | intros [post Hp]].
        rewrite app_cons in Hp. by simplify_eq.
Qed.

Lemma includes_empty (sub : string) :
  Js.includes "" sub = String.prefix sub "".
Proof. unfold Js.includes. apply orb_false_r. Qed.

Lemma includes_cons (a : ascii) (s sub : string) :
  Js.includes (String a s) sub =
  String.prefix sub (String a s) || Js.includes s sub.
Proof. reflexivity. Qed.

Lemma includes_occurs (s sub : string) :
  Js.includes s sub = true ↔ occurs_in sub s.
Proof.
  unfold occurs_in. induction s as [|a s IH].
  - rewrite includes_empty, prefix_app. split.
    + intros [post ->]. by exists "", post.
    + intros ([|b pre] & post & Hs); [by exists post | done].
  - rewrite includes_cons, orb_true_iff, prefix_app, IH. split.
    + intros [[post ->]|(pre & post & ->)].
      * by exists "", post.
      * by exists (String a pre), post.
    + intros ([|b pre] & post & Hs).
      * left. by exists post.
      * right. rewrite app_cons in Hs. simplify_eq. by exists pre, post.
Qed.

Lemma includes_not_occurs (s sub : string) :
  Js.includes s sub = false ↔ ¬ occurs_in sub s.
Proof. rewrite <-includes_occurs. by destruct (Js.includes s sub). Qed.

Lemma tokens_head (s : string) :
  ∃ t ts post, Spec.tokens s = t :: ts ∧ s = t +:+ post.
Proof.
  induction s as [|a s (t & ts & post & Ht & Hs)]; simpl.
  - by exists "", [], "".
  - case_bool_decide.
    + by exists "", (Spec.tokens s), (String a s).
    + rewrite Ht. exists (String a t), ts, post.
      split; [done|]. by rewrite app_cons, <-Hs.
Qed.

Lemma token_occurs (t s : string) : t ∈ Spec.tokens s → occurs_in t s.
Proof.
  revert t. induction s as [|a s IH]; intros t; simpl.
  - intros ->%list_elem_of_singleton. by exists "", "".
  - destruct (tokens_head s) as (t0 & ts & post & Ht & Hs).
    case_bool_decide.
    + intros [->|Hin]%elem_of_cons.
      * by exists "", (String a s).
      * destruct (IH _ Hin) as (pre & post' & ->).
        by exists (String a pre), post'.
    + rewrite Ht. intros [->|Hin]%elem_of_cons.
      * exists "", post. by rewrite app_empty, app_cons, <-Hs.
      * destruct (IH t) as (pre & post' & ->).
        { rewrite Ht. by right. }
        by exists (String a pre), post'.
Qed.

End strings.

(** ** [getStatusColor] *)

Lemma getStatusColor_tiers (c : Z) :
  ((500 ≤ c)%Z → getStatusColor c = "red") ∧
  ((400 ≤ c < 500)%Z → getStatusColor c = "orange") ∧
  ((300 ≤ c < 400)%Z → getStatusColor c = "yellow") ∧
  ((c < 300)%Z → getStatusColor c = "green").
Proof. unfold getStatusColor. repeat case_decide; repeat split; intros; lia || done. Qed.

(** ** [processLink] *)

Lemma truthy_false (x : option string) :
  Js.truthy x = false ↔ x = None ∨ x = Some "".
Proof.
  destruct x as [[|a s]|]; simpl; split; auto; try done.
  by intros [?|?].
Qed.

Lemma truthy_true (x : option string) :
  Js.truthy x = true ↔ ∃ s, x = Some s ∧ s ≠ "".
Proof.
  destruct x as [[|a s]|]; simpl; split; try done.
  - by intros (s & [= <-] & ?).
  - by exists (String a s).
  - by intros (s & ? & ?).
Qed.

Lemma strict_ne_true (x : option string) (y : string) :
  Js.strict_ne x y = true ↔ x ≠ Some y.
Proof.
  destruct x as [s|]; simpl; [|naive_solver].
  rewrite bool_decide_eq_true. naive_solver.
Qed.

(** Every call of [processLink] ends in a record, whatever the probe did. *)
Lemma processLink_settles (link : Node) (s : Settled) :
  ∃ r, resume (processLink link) s = Return r.
Proof. processLink_paths link s; eauto. Qed.

Lemma processLink_no_throw (link : Node) : no_throw (processLink link).
Proof.
  unfold processLink. destruct (Js.truthy _); simpl; [|done].
  intros [resp|[[resp|]]|]; simpl; [by destruct (Js.strict_ne _ _)|done..].
Qed.

Lemma processLink_awaiting (link : Node) :
  awaiting (processLink link) =
  if Js.truthy (Cheerio.attr "href" link) then Cheerio.attr "href" link
  else None.
Proof.
  unfold processLink. destruct (Cheerio.attr "href" link) as [[|a h]|]; done.
Qed.

(** A probe that returns a response normally fills in the status and the
    final URL of that response. *)
Lemma processLink_resolved (link : Node) (resp : Response) :
  Js.truthy (Cheerio.attr "href" link) = true →
  ∃ r, resume (processLink link) (Resolved resp) = Return r ∧
       statusCode r = status resp ∧
       redirectedUrl r = responseUrl resp ∧
       statusColor r = getStatusColor (status resp).
Proof.
  intros Hh. unfold processLink. rewrite Hh. cbn [resume].
  destruct (Js.strict_ne _ _); eauto.
Qed.

(** A thrown error that carries a response fills in the status of that
    response; the final URL is not read. *)
Lemma processLink_rejected_response (link : Node) (resp : Response) :
  Js.truthy (Cheerio.attr "href" link) = true →
  ∃ r, resume (processLink link) (Rejected {| response := Some resp |})
       = Return r ∧
       statusCode r = status resp ∧
       statusColor r = getStatusColor (status resp) ∧
       redirectedUrl r = "".
Proof. intros Hh. unfold processLink. rewrite Hh. cbn [resume]. eauto. Qed.

(** C1, at the probe of [https://x/missing] answered with 404: the thrown
    error carries the response, the record takes its status 404 and the
    colour of 404, and [redirectedUrl] stays empty instead of the URL of
    that response. *)
Theorem processLink_error_response_leaves_redirectedUrl_empty :
  ∃ r, awaiting (processLink Inputs.anchor_missing) = Some "https://x/missing" ∧
       resume (processLink Inputs.anchor_missing) Inputs.not_found = Return r ∧
       statusCode r = 404%Z ∧
       statusColor r = "orange" ∧
       redirectedUrl r = "" ∧
       redirectedUrl r ≠ "https://x/missing".
Proof. vm_compute. eexists. repeat split; [reflexivity..|discriminate]. Qed.

(** C2 as stated fails on [class="c-hyperlink"]: the string has no [link]
    token, and [processLink] reports the type "link". *)
Lemma linkType_by_tokens_counterexample :
  ∃ r, processLink Inputs.anchor_hyperlink = Return r ∧
       linkType r = "link" ∧
       Spec.linkType_by_tokens "c-hyperlink" = "unknown" ∧
       linkType r ≠ Spec.linkType_by_tokens "c-hyperlink".
Proof. vm_compute. eexists. repeat split; [reflexivity..|discriminate]. Qed.

(** The cascade of [includes] tests of [processLink], read as occurrences. *)
Lemma includes_cascade (classNames : string) :
  let linkType :=
    if Js.includes classNames "cta" then "cta"
    else if Js.includes classNames "button" then "button"
    else if Js.includes classNames "link" then "link"
    else "unknown" in
  (occurs_in "cta" classNames → linkType = "cta") ∧
  (¬ occurs_in "cta" classNames → occurs_in "button" classNames →
   linkType = "button") ∧
  (¬ occurs_in "cta" classNames → ¬ occurs_in "button" classNames →
   occurs_in "link" classNames → linkType = "link") ∧
  (¬ occurs_in "cta" classNames → ¬ occurs_in "button" classNames →
   ¬ occurs_in "link" classNames → linkType = "unknown") ∧
  ("cta" ∈ Spec.tokens classNames → linkType = "cta").
Proof.
  cbv zeta.
  destruct (Js.includes classNames "cta") eqn:Hcta;
    [apply includes_occurs in Hcta | apply includes_not_occurs in Hcta];
  (destruct (Js.includes classNames "button") eqn:Hbutton;
    [apply includes_occurs in Hbutton | apply includes_not_occurs in Hbutton]);
  (destruct (Js.includes classNames "link") eqn:Hlink;
    [apply includes_occurs in Hlink | apply includes_not_occurs in Hlink]);
  repeat split; intros; try done; exfalso; eauto using token_occurs.
Qed.

(** C2, amended: the link type is decided by the occurrence of a word
    anywhere in the class string (the empty string when the attribute is
    absent), first match wins: "cta", else "button", else "link", else
    "unknown". A class string with a [cta] token is of type "cta". *)
Theorem linkType_by_occurrence (link : Node) (s : Settled) :
  ∃ r, resume (processLink link) s = Return r ∧
       let classNames := Js.or_default (Cheerio.attr "class" link) "" in
       (occurs_in "cta" classNames → linkType r = "cta") ∧
       (¬ occurs_in "cta" classNames → occurs_in "button" classNames →
        linkType r = "button") ∧
       (¬ occurs_in "cta" classNames → ¬ occurs_in "button" classNames →
        occurs_in "link" classNames → linkType r = "link") ∧
       (¬ occurs_in "cta" classNames → ¬ occurs_in "button" classNames →
        ¬ occurs_in "link" classNames → linkType r = "unknown") ∧
       ("cta" ∈ Spec.tokens classNames → linkType r = "cta").
Proof.
  processLink_paths link s; eexists; (split; [reflexivity|]);
    apply includes_cascade.
Qed.

(** C3 as stated fails for a probe without response: the record has the
    url [https://x/down] and an empty [redirectedUrl], which differ, and
    both colours are empty. *)
Lemma url_colors_counterexample :
  ∃ r, resume (processLink Inputs.anchor_down) Inputs.unreachable = Return r ∧
       url r = Some "https://x/down" ∧ redirectedUrl r = "" ∧
       originalUrlColor r = "" ∧ redirectedUrlColor r = "" ∧
       ¬ (originalUrlColor r ≠ "" ∧ redirectedUrlColor r ≠ "" ↔
          Js.strict_ne (url r) (redirectedUrl r) = true).
Proof.
  vm_compute. eexists. repeat split; [reflexivity..|].
  intros [_ Hflag]. by destruct Hflag.
Qed.

(** C3, amended: [originalUrlColor] is non-empty if and only if
    [redirectedUrlColor] is; when they are non-empty, [url !== redirectedUrl];
    for a probe that returned a response whose final URL
    ([response.request.res.responseUrl]) could be read, they are "blue" and
    "purple" as soon as [url !== redirectedUrl]; for an anchor without
    href, for a probe without response and for a returned response that
    has no request (reading the final URL throws) both stay empty. *)
Theorem url_colors_flag_divergence (link : Node) (s : Settled) :
  ∃ r, resume (processLink link) s = Return r ∧
       (originalUrlColor r ≠ "" ↔ redirectedUrlColor r ≠ "") ∧
       (originalUrlColor r ≠ "" →
        Js.strict_ne (url r) (redirectedUrl r) = true) ∧
       (Js.truthy (Cheerio.attr "href" link) = true →
        (∃ resp, s = Resolved resp) →
        Js.strict_ne (url r) (redirectedUrl r) = true →
        originalUrlColor r = "blue" ∧ redirectedUrlColor r = "purple") ∧
       (Js.truthy (Cheerio.attr "href" link) = false ∨
        s = Rejected {| response := None |} ∨
        s = ResolvedWithoutRequest →
        originalUrlColor r = "" ∧ redirectedUrlColor r = "").
Proof.
  processLink_paths link s; (eexists; split; [reflexivity|]); record_fields;
    repeat split; try done; try congruence;
    repeat match goal with
           | H : _ ∨ _ |- _ => destruct H
           | H : ∃ _, _ |- _ => destruct H
           end; done.
Qed.

(** C6: the colour of every record is the severity of its status code,
    on each path of [processLink]: "red" from 500, "orange" from 400,
    "yellow" from 300, "green" below, the defaults 200 and "green"
    included. *)
Theorem statusColor_matches_statusCode (link : Node) (s : Settled) :
  ∃ r, resume (processLink link) s = Return r ∧
       statusColor r = getStatusColor (statusCode r) ∧
       ((500 ≤ statusCode r)%Z → statusColor r = "red") ∧
       ((400 ≤ statusCode r < 500)%Z → statusColor r = "orange") ∧
       ((300 ≤ statusCode r < 400)%Z → statusColor r = "yellow") ∧
       ((statusCode r < 300)%Z → statusColor r = "green").
Proof.
  assert (∀ r, statusColor r = getStatusColor (statusCode r) →
    statusColor r = getStatusColor (statusCode r) ∧
    ((500 ≤ statusCode r)%Z → statusColor r = "red") ∧
    ((400 ≤ statusCode r < 500)%Z → statusColor r = "orange") ∧
    ((300 ≤ statusCode r < 400)%Z → statusColor r = "yellow") ∧
    ((statusCode r < 300)%Z → statusColor r = "green")) as Htiers.
  { intros r ->. split; [done|]. apply getStatusColor_tiers. }
  processLink_paths link s; (eexists; split; [reflexivity|]);
    apply Htiers; reflexivity.
Qed.

(** C7: a probe that fails without any response leaves the defaults in
    place, status 200, colour "green" and an empty [redirectedUrl], and
    [processLink] does not throw. *)
Theorem no_response_keeps_defaults (link : Node) :
  Js.truthy (Cheerio.attr "href" link) = true →
  awaiting (processLink link) = Cheerio.attr "href" link ∧
  no_throw (processLink link) ∧
  ∃ r, resume (processLink link) (Rejected {| response := None |}) = Return r ∧
       statusCode r = 200%Z ∧ statusColor r = "green" ∧ redirectedUrl r = "".
Proof.
  intros Hh. split; [by rewrite processLink_awaiting, Hh|].
  split; [apply processLink_no_throw|].
  unfold processLink. rewrite Hh. cbn [resume response]. eauto.
Qed.

Lemma no_response_keeps_defaults_witness :
  awaiting (processLink Inputs.anchor_down) =
    Cheerio.attr "href" Inputs.anchor_down ∧
  no_throw (processLink Inputs.anchor_down) ∧
  ∃ r, resume (processLink Inputs.anchor_down) (Rejected {| response := None |})
       = Return r ∧
       statusCode r = 200%Z ∧ statusColor r = "green" ∧ redirectedUrl r = "".
Proof. apply (no_response_keeps_defaults Inputs.anchor_down). reflexivity. Defined.

(** C8: an anchor whose href is absent or empty gets its record at once,
    with no request sent: status 200, colour "green" and an empty
    [redirectedUrl]. *)
Theorem no_href_no_probe (link : Node) :
  Cheerio.attr "href" link = None ∨ Cheerio.attr "href" link = Some "" →
  ∃ r, processLink link = Return r ∧
       awaiting (processLink link) = None ∧
       statusCode r = 200%Z ∧ statusColor r = "green" ∧ redirectedUrl r = "".
Proof.
  intros Hh%truthy_false. unfold processLink. rewrite Hh.
  eexists. repeat split; reflexivity.
Qed.

Lemma no_href_no_probe_witness :
  ∃ r, processLink Inputs.anchor_named = Return r ∧
       awaiting (processLink Inputs.anchor_named) = None ∧
       statusCode r = 200%Z ∧ statusColor r = "green" ∧ redirectedUrl r = "".
Proof. apply (no_href_no_probe Inputs.anchor_named). left. reflexivity. Defined.

(** C10: [ariaLabel] and [target] are the empty string when their
    attribute is absent; [url] is the href attribute as it is, undefined
    when the anchor has none, and then the serialized record has no [url]
    property. *)
Theorem url_is_raw_href (link : Node) (s : Settled) :
  ∃ r, resume (processLink link) s = Return r ∧
       url r = Cheerio.attr "href" link ∧
       (Cheerio.attr "aria-label" link = None → ariaLabel r = "") ∧
       (Cheerio.attr "target" link = None → target r = "") ∧
       (Cheerio.attr "href" link = None →
        url r = None ∧ "url" ∉ (to_json r).*1) ∧
       (∀ h, Cheerio.attr "href" link = Some h →
        ("url", JString h) ∈ to_json r) ∧
       ("ariaLabel", JString (ariaLabel r)) ∈ to_json r ∧
       ("target", JString (target r)) ∈ to_json r.
Proof.
  assert (∀ r,
    url r = Cheerio.attr "href" link →
    ariaLabel r = Js.or_default (Cheerio.attr "aria-label" link) "" →
    target r = Js.or_default (Cheerio.attr "target" link) "" →
    url r = Cheerio.attr "href" link ∧
    (Cheerio.attr "aria-label" link = None → ariaLabel r = "") ∧
    (Cheerio.attr "target" link = None → target r = "") ∧
    (Cheerio.attr "href" link = None →
     url r = None ∧ "url" ∉ (to_json r).*1) ∧
    (∀ h, Cheerio.attr "href" link = Some h →
     ("url", JString h) ∈ to_json r) ∧
    ("ariaLabel", JString (ariaLabel r)) ∈ to_json r ∧
    ("target", JString (target r)) ∈ to_json r) as Hfields.
  { intros r Hu Ha Ht. split; [done|].
    split; [by intros Hn; rewrite Ha, Hn|].
    split; [by intros Hn; rewrite Ht, Hn|].
    unfold to_json. rewrite Hu. split; [|split; [|split]].
    - intros Hnone. split; [done|]. rewrite Hnone. cbn. intros Hin.
      repeat (apply elem_of_cons in Hin as [Hin|Hin]; [discriminate Hin|]).
      by apply elem_of_nil in Hin.
    - intros h ->. cbn. do 3 right. left.
    - do 2 right. left.
    - destruct (Cheerio.attr "href" link); cbn; repeat constructor. }
  processLink_paths link s; (eexists; split; [reflexivity|]);
    apply Hfields; reflexivity.
Qed.

(** ** The end-to-end scenarios of the specification *)

Section scenarios.

Import Inputs.

Example scenario_ok :
  resume (processLink anchor_ok) ok
  = Return {| linkType := "cta"; linkText := "Go"; ariaLabel := "";
              url := Some "https://x/ok"; redirectedUrl := "https://x/ok";
              statusCode := 200; target := ""; statusColor := "green";
              originalUrlColor := ""; redirectedUrlColor := "" |}.
Proof. reflexivity. Qed.

Example scenario_moved :
  resume (processLink anchor_moved) moved
  = Return {| linkType := "button"; linkText := "Go"; ariaLabel := "";
              url := Some "https://x/moved"; redirectedUrl := "https://x/new";
              statusCode := 200; target := ""; statusColor := "green";
              originalUrlColor := "blue"; redirectedUrlColor := "purple" |}.
Proof. reflexivity. Qed.

Example scenario_missing :
  resume (processLink anchor_missing) not_found
  = Return {| linkType := "unknown"; linkText := "Missing"; ariaLabel := "";
              url := Some "https://x/missing"; redirectedUrl := "";
              statusCode := 404; target := ""; statusColor := "orange";
              originalUrlColor := ""; redirectedUrlColor := "" |}.
Proof. reflexivity. Qed.

Example scenario_down :
  resume (processLink anchor_down) unreachable
  = Return {| linkType := "unknown"; linkText := "Down"; ariaLabel := "";
              url := Some "https://x/down"; redirectedUrl := "";
              statusCode := 200; target := ""; statusColor := "green";
              originalUrlColor := ""; redirectedUrlColor := "" |}.
Proof. reflexivity. Qed.

Example scenario_no_href :
  processLink anchor_named
  = Return {| linkType := "unknown"; linkText := ""; ariaLabel := "";
              url := None; redirectedUrl := "";
              statusCode := 200; target := ""; statusColor := "green";
              originalUrlColor := ""; redirectedUrlColor := "" |}.
Proof. reflexivity. Qed.

Example scenario_data_url :
  resume (processLink anchor_data) ResolvedWithoutRequest
  = Return {| linkType := "unknown"; linkText := "Note"; ariaLabel := "";
              url := Some "data:text/plain,hi"; redirectedUrl := "";
              statusCode := 200; target := ""; statusColor := "green";
              originalUrlColor := ""; redirectedUrlColor := "" |}.
Proof. reflexivity. Qed.

(** No-break spaces are white space, for [trim] and between class names. *)
Example scenario_no_break_space :
  Js.trim (nbsp +:+ " Go now" +:+ nbsp +:+ " ") = "Go now" ∧
  Cheerio.has_class "microsoft-template-layout-container"
    (Element "main"
       {[ "class" := "wrap" +:+ nbsp +:+ "microsoft-template-layout-container" ]}
       []) = true.
Proof. split; vm_compute; reflexivity. Qed.

(** A call that asked again after its first answer would be seen in the
    requests of the run. *)
Example scenario_second_request :
  PromiseAll.requested
    (PromiseAll.finish
       [AxiosGet "https://x/ok" (λ _,
          AxiosGet "https://x/ok" (λ s, resume (processLink anchor_ok) s))]
       (λ _, ok) [0; 0])
  = ["https://x/ok"; "https://x/ok"].
Proof. vm_compute. reflexivity. Qed.

(** The whole page, chrome included: three records in document order, the
    later probe settling first; one probe is sent per href. *)
Example scenario_page :
  link_details (PageData page Cheerio.wrap) true
    (λ i, match i with 1 => moved | _ => unreachable end) [2; 1]
  = {| reply := Sent 200 (Links
         [ {| linkType := "unknown"; linkText := ""; ariaLabel := "";
              url := None; redirectedUrl := "";
              statusCode := 200; target := ""; statusColor := "green";
              originalUrlColor := ""; redirectedUrlColor := "" |};
           {| linkType := "button"; linkText := "Go"; ariaLabel := "";
              url := Some "https://x/moved"; redirectedUrl := "https://x/new";
              statusCode := 200; target := ""; statusColor := "green";
              originalUrlColor := "blue"; redirectedUrlColor := "purple" |};
           {| linkType := "unknown"; linkText := "Down"; ariaLabel := "";
              url := Some "https://x/down"; redirectedUrl := "";
              statusCode := 200; target := ""; statusColor := "green";
              originalUrlColor := ""; redirectedUrlColor := "" |} ]);
       probes := ["https://x/moved"; "https://x/down"] |}.
Proof. vm_compute. reflexivity. Qed.

(** A probe that never settles leaves the request without reply. *)
Example scenario_hung :
  reply (link_details (PageData page Cheerio.wrap) true network_down [1]) = NoReply.
Proof. vm_compute. reflexivity. Qed.

End scenarios.

(** ** [Promise.all] *)

Section promise_all.

Implicit Types (ms : list (Async LinkRecord)) (m : Async LinkRecord).

Lemma one_shot_resume m s : one_shot m → one_shot (resume m s).
Proof. intros Hm s'. destruct (Hm s) as [r ->]. by exists r. Qed.

Lemma one_shot_resume_twice m s s' :
  one_shot m → resume (resume m s) s' = resume m s.
Proof. intros Hm. by destruct (Hm s) as [r ->]. Qed.

Lemma one_shot_not_throw reason : ¬ one_shot (@Throw LinkRecord reason).
Proof. intros Hm. by destruct (Hm (Rejected {| response := None |})). Qed.

Lemma processLink_one_shot link : one_shot (processLink link).
Proof. intros s. apply processLink_settles. Qed.

(** The promises already fulfilled fill their positions, in order, when
    [Promise.all] starts. *)
Lemma start_from pre post rem tasks requests :
  Forall one_shot post →
  foldl (λ st im, PromiseAll.notify im.1 im.2 st)
    {| PromiseAll.tasks := tasks;
       PromiseAll.values :=
         (fulfilled_value <$> pre) ++ replicate (length post) None;
       PromiseAll.remaining := rem + length post;
       PromiseAll.rejection := None;
       PromiseAll.requested := requests |}
    (imap (λ i m, (length pre + i, m)) post)
  = {| PromiseAll.tasks := tasks;
       PromiseAll.values := fulfilled_value <$> (pre ++ post);
       PromiseAll.remaining := rem + unsettled post;
       PromiseAll.rejection := None;
       PromiseAll.requested := requests |}.
Proof.
  revert pre rem.
  induction post as [|m post IH]; intros pre rem Hpost.
  { simpl. by rewrite !app_nil_r. }
  apply Forall_cons in Hpost as [Hm Hpost].
  rewrite imap_cons. cbn [foldl fst snd length replicate].
  assert (imap ((λ i m0, (length pre + i, m0)) ∘ S) post
          = imap (λ i m0, (length (pre ++ [m]) + i, m0)) post) as ->.
  { apply imap_ext. intros i x _. simpl. rewrite length_app. simpl.
    f_equal. lia. }
  destruct m as [v|reason|href k].
  - cbn [PromiseAll.notify PromiseAll.tasks PromiseAll.values
         PromiseAll.remaining PromiseAll.rejection PromiseAll.requested
         unsettled].
    replace (length pre + 0) with (length (fulfilled_value <$> pre) + 0)
      by (by rewrite length_fmap).
    rewrite insert_app_r. cbn [insert list_insert].
    replace (pred (rem + S (length post))) with (rem + length post) by lia.
    specialize (IH (pre ++ [Return v]) rem Hpost).
    rewrite fmap_app, <-(assoc_L (++)) in IH. cbn [fmap list_fmap app fulfilled_value] in IH.
    rewrite IH. by rewrite <-(assoc_L (++)).
  - by destruct (one_shot_not_throw reason).
  - cbn [PromiseAll.notify unsettled].
    specialize (IH (pre ++ [AxiosGet href k]) (S rem) Hpost).
    rewrite fmap_app, <-(assoc_L (++)) in IH. cbn [fmap list_fmap app fulfilled_value] in IH.
    replace (rem + S (length post)) with (S rem + length post) by lia.
    rewrite IH. rewrite <-(assoc_L (++)). f_equal. lia.
Qed.

Lemma start_observed ms :
  Forall one_shot ms →
  PromiseAll.start ms = observed (omap awaiting ms) ms.
Proof.
  intros Hms. unfold PromiseAll.start, observed.
  pose proof (start_from [] ms 0 ms (omap awaiting ms) Hms) as Hstart.
  cbn [length fmap list_fmap app Nat.add] in Hstart. exact Hstart.
Qed.

Lemma unsettled_fulfil ms i href k v :
  ms !! i = Some (AxiosGet href k) →
  unsettled (<[i := Return v]> ms) = pred (unsettled ms).
Proof.
  revert i. induction ms as [|m ms IH]; intros [|i] Hi; simplify_eq/=.
  - done.
  - rewrite (IH i Hi). destruct m; [done..| |]; simpl.
    + assert (0 < unsettled ms); [|lia].
      clear IH. revert i Hi.
      induction ms as [|[] ms IH']; intros [|i] ?; simplify_eq/=;
        eauto with lia.
    + assert (0 < unsettled ms); [|lia].
      clear IH. revert i Hi.
      induction ms as [|[] ms IH']; intros [|i] ?; simplify_eq/=;
        eauto with lia.
Qed.

(** One probe settles: its promise moves on, [Promise.all] stores the
    value at the position of that promise, and no request is sent. *)
Lemma settle_observed requests ms i s :
  Forall one_shot ms →
  PromiseAll.settle i s (observed requests ms)
  = observed requests (alter (λ m, resume m s) i ms).
Proof.
  intros Hms. unfold PromiseAll.settle. cbn [observed PromiseAll.tasks].
  destruct (ms !! i) as [m|] eqn:Hi.
  - assert (alter (λ m, resume m s) i ms = <[i := resume m s]> ms) as ->.
    { apply list_eq. intros j. destruct (decide (i = j)) as [<-|Hne].
      + rewrite list_lookup_alter_eq, Hi, list_lookup_insert_eq; [done|].
        by eapply lookup_lt_Some.
      + by rewrite list_lookup_alter_ne, list_lookup_insert_ne. }
    destruct m as [v|reason|href k]; cbn [resume].
    + by rewrite list_insert_id.
    + by rewrite list_insert_id.
    + destruct (Forall_lookup_1 _ _ _ _ Hms Hi s) as [r Hr].
      cbn [resume] in Hr. rewrite Hr.
      unfold observed, PromiseAll.notify.
      cbn [PromiseAll.tasks PromiseAll.values PromiseAll.remaining
           PromiseAll.rejection PromiseAll.requested awaiting option_list].
      rewrite list_fmap_insert, app_nil_r. cbn [fulfilled_value].
      by erewrite unsettled_fulfil.
  - f_equal. apply list_eq. intros j. destruct (decide (i = j)) as [<-|Hne].
    + by rewrite list_lookup_alter_eq, Hi.
    + by rewrite list_lookup_alter_ne.
Qed.

Lemma settle_all_one_shot network order ms :
  Forall one_shot ms → Forall one_shot (settle_all network order ms).
Proof.
  revert ms. induction order as [|i order IH]; intros ms Hms; [done|].
  apply IH. apply Forall_alter; [done|]. intros m _. by apply one_shot_resume.
Qed.

Lemma settle_all_observed requests network order ms :
  Forall one_shot ms →
  foldl (λ st i, PromiseAll.settle i (network i) st)
    (observed requests ms) order
  = observed requests (settle_all network order ms).
Proof.
  revert ms. induction order as [|i order IH]; intros ms Hms; [done|].
  cbn [foldl]. rewrite settle_observed by done.
  rewrite IH; [done|].
  apply Forall_alter; [done|]. intros m _. by apply one_shot_resume.
Qed.

Lemma settle_all_length network order ms :
  length (settle_all network order ms) = length ms.
Proof.
  revert ms. induction order as [|i order IH]; intros ms; [done|].
  unfold settle_all in *. cbn [foldl]. by rewrite IH, length_alter.
Qed.

(** Each promise ends where its own probe leads it: the order in which
    the probes settle leaves no trace. *)
Lemma settle_all_lookup network order ms i m :
  Forall one_shot ms →
  ms !! i = Some m →
  settle_all network order ms !! i
  = Some (if bool_decide (i ∈ order) then resume m (network i) else m).
Proof.
  revert ms m. induction order as [|j order IH]; intros ms m Hms Hi.
  { by rewrite bool_decide_eq_false_2 by apply not_elem_of_nil. }
  assert (one_shot m) as Hm by (by eapply Forall_lookup_1).
  unfold settle_all in *. cbn [foldl].
  assert (Forall one_shot (alter (λ m, resume m (network j)) j ms)) as Hms'.
  { apply Forall_alter; [done|]. intros m' _. by apply one_shot_resume. }
  destruct (decide (j = i)) as [->|Hne].
  - erewrite (IH _ (resume m (network i))); [|done|].
    + rewrite one_shot_resume_twice by done.
      rewrite (bool_decide_eq_true_2 (i ∈ i :: order)) by left.
      by destruct (bool_decide _).
    + by rewrite list_lookup_alter_eq, Hi.
  - erewrite (IH _ m); [|done|].
    + rewrite (bool_decide_ext (i ∈ j :: order) (i ∈ order)); [done|].
      rewrite elem_of_cons. split; [by intros [->|?] | by right].
    + by rewrite list_lookup_alter_ne.
Qed.

Lemma all_returned ms :
  Forall (λ m, ∃ r, m = Return r) ms →
  unsettled ms = 0 ∧ ms = Return <$> omap id (fulfilled_value <$> ms).
Proof.
  induction 1 as [|m ms [r ->] _ [IHn IHl]]; [done|].
  split; [done|]. cbn [fmap list_fmap fulfilled_value omap list_omap id].
  f_equal. exact IHl.
Qed.

(** [Promise.all] is fulfilled once every pending probe has settled, with
    one value per promise, each at the position of its promise. *)
Lemma run_fulfilled network order ms :
  Forall one_shot ms →
  (∀ i m, ms !! i = Some m → is_Some (awaiting m) → i ∈ order) →
  ∃ results,
    PromiseAll.run ms network order = PromiseAll.Fulfilled results ∧
    length results = length ms ∧
    ∀ i m, ms !! i = Some m →
      ∃ r, results !! i = Some r ∧ resume m (network i) = Return r.
Proof.
  intros Hms Hcover. unfold PromiseAll.run, PromiseAll.finish.
  rewrite start_observed, settle_all_observed by done.
  set (ts := settle_all network order ms).
  assert (∀ i m, ms !! i = Some m → ts !! i = Some (resume m (network i)))
    as Hts.
  { intros i m Hi. unfold ts. rewrite (settle_all_lookup _ _ _ _ m) by done.
    case_bool_decide as Hin; [done|]. f_equal.
    destruct m as [v|reason|href k]; [done..|].
    destruct Hin. eapply Hcover; [done|]. by eexists. }
  assert (Forall (λ m, ∃ r, m = Return r) ts) as Hret.
  { apply Forall_lookup_2. intros i t Hi.
    destruct (ms !! i) as [m|] eqn:Hm.
    - rewrite (Hts _ _ Hm) in Hi. simplify_eq.
      eapply Forall_lookup_1 in Hms; [|done]. apply Hms.
    - apply lookup_ge_None in Hm. apply lookup_lt_Some in Hi.
      unfold ts in Hi. rewrite settle_all_length in Hi. lia. }
  destruct (all_returned _ Hret) as [Hzero Hlist].
  exists (omap id (fulfilled_value <$> ts)).
  split; [|split].
  - unfold PromiseAll.result, observed.
    cbn [PromiseAll.rejection PromiseAll.remaining PromiseAll.values].
    by rewrite Hzero.
  - rewrite <-(settle_all_length network order ms). fold ts.
    rewrite Hlist at 2. by rewrite length_fmap.
  - intros i m Hi. apply Hts in Hi. rewrite Hlist, list_lookup_fmap in Hi.
    destruct (omap id (fulfilled_value <$> ts) !! i) as [r|]; [|done].
    exists r. by simplify_eq/=.
Qed.

End promise_all.

(** ** The route *)

Lemma getPageContent_failed (message : string) (includeUhf : bool) :
  getPageContent (PageFailed message) includeUhf = None.
Proof. reflexivity. Qed.

Lemma getPageContent_data (data : Document) (reload : list Node → Document)
    (includeUhf : bool) :
  is_Some (getPageContent (PageData data reload) includeUhf).
Proof.
  unfold getPageContent. destruct includeUhf; cbn [negb]; [by eexists|].
  destruct (Cheerio.html_is_empty _); by eexists.
Qed.

(** The requests sent in a run are those the calls of [processLink] start
    with: no call sends a second one, in whatever order the probes settle,
    and whether all of them settle or not. *)
Lemma finish_requested network order links :
  PromiseAll.requested
    (PromiseAll.finish (processLink <$> links) network order)
  = omap awaiting (processLink <$> links).
Proof.
  assert (Forall one_shot (processLink <$> links)) as Hms.
  { apply Forall_fmap, Forall_forall. intros l _. apply processLink_one_shot. }
  unfold PromiseAll.finish.
  by rewrite start_observed, settle_all_observed.
Qed.

(** The probes of a run are the non-empty hrefs of the anchors, in document
    order. *)
Lemma link_details_probes fetched includeUhf network order doc :
  getPageContent fetched includeUhf = Some doc →
  probes (link_details fetched includeUhf network order)
  = omap (λ link, if Js.truthy (Cheerio.attr "href" link)
                  then Cheerio.attr "href" link else None)
      (Cheerio.select (Cheerio.is_tag "a") doc).
Proof.
  intros Hdoc. unfold link_details. rewrite Hdoc. cbn [probes].
  rewrite finish_requested.
  induction (Cheerio.select _ doc) as [|link links IH]; [done|].
  cbn [fmap list_fmap omap list_omap]. cbn [fmap list_fmap omap] in IH.
  by rewrite IH, processLink_awaiting.
Qed.

(** A fetched document whose pending probes all settle is answered with
    one record per anchor, the record at position [i] being the one
    [processLink] builds for the anchor at position [i]. *)
Lemma link_details_fulfilled fetched includeUhf network order doc :
  getPageContent fetched includeUhf = Some doc →
  (∀ i link,
     Cheerio.select (Cheerio.is_tag "a") doc !! i = Some link →
     Js.truthy (Cheerio.attr "href" link) = true → i ∈ order) →
  ∃ results,
    reply (link_details fetched includeUhf network order)
    = Sent 200 (Links results) ∧
    length results = length (Cheerio.select (Cheerio.is_tag "a") doc) ∧
    ∀ i link,
      Cheerio.select (Cheerio.is_tag "a") doc !! i = Some link →
      ∃ r, results !! i = Some r ∧
           resume (processLink link) (network i) = Return r.
Proof.
  intros Hdoc Hcover. unfold link_details. rewrite Hdoc. cbn [reply].
  set (links := Cheerio.select (Cheerio.is_tag "a") doc) in *.
  destruct (run_fulfilled network order (processLink <$> links))
    as (results & -> & Hlen & Hat).
  - apply Forall_fmap, Forall_forall. intros link _.
    apply processLink_one_shot.
  - intros i m [link [-> Hi]]%list_lookup_fmap_Some Hwait.
    apply (Hcover i link Hi).
    rewrite processLink_awaiting in Hwait.
    destruct (Js.truthy _); [done|by destruct Hwait].
  - exists results. split; [done|]. split; [by rewrite Hlen, length_fmap|].
    intros i link Hi. apply Hat. by rewrite list_lookup_fmap, Hi.
Qed.

(** C4: for a fetched document, whatever the probes answer, failures with
    or without response included, the reply holds exactly one record per
    anchor; [processLink] never throws, and the outcome of one probe
    changes no record but its own. *)
Theorem link_details_one_record_per_anchor
    fetched includeUhf network order doc :
  getPageContent fetched includeUhf = Some doc →
  every_probe_settles order (Cheerio.select (Cheerio.is_tag "a") doc) →
  (∀ link, no_throw (processLink link)) ∧
  ∃ results,
    reply (link_details fetched includeUhf network order)
    = Sent 200 (Links results) ∧
    length results = length (Cheerio.select (Cheerio.is_tag "a") doc) ∧
    ∀ j network',
      (∀ i, i ≠ j → network' i = network i) →
      ∃ results',
        reply (link_details fetched includeUhf network' order)
        = Sent 200 (Links results') ∧
        length results' = length (Cheerio.select (Cheerio.is_tag "a") doc) ∧
        ∀ i, i ≠ j → results' !! i = results !! i.
Proof.
  intros Hdoc Hcover. split; [apply processLink_no_throw|].
  destruct (link_details_fulfilled _ _ network _ _ Hdoc Hcover)
    as (results & Hreply & Hlen & Hat).
  exists results. split; [done|]. split; [done|].
  intros j network' Hsame.
  destruct (link_details_fulfilled _ _ network' _ _ Hdoc Hcover)
    as (results' & Hreply' & Hlen' & Hat').
  exists results'. split; [done|]. split; [done|].
  intros i Hi.
  destruct (Cheerio.select (Cheerio.is_tag "a") doc !! i) as [link|] eqn:Hl.
  - destruct (Hat _ _ Hl) as (r & -> & Hr).
    destruct (Hat' _ _ Hl) as (r' & -> & Hr').
    rewrite (Hsame i Hi) in Hr'. congruence.
  - apply lookup_ge_None in Hl.
    rewrite !(proj2 (lookup_ge_None _ _)); [done|lia..].
Qed.

Lemma link_details_one_record_per_anchor_witness :
  (∀ link, no_throw (processLink link)) ∧
  ∃ results,
    reply (link_details (PageData Inputs.page Cheerio.wrap) true Inputs.network_down [2; 1])
    = Sent 200 (Links results) ∧
    length results
    = length (Cheerio.select (Cheerio.is_tag "a") Inputs.page) ∧
    ∀ j network',
      (∀ i, i ≠ j → network' i = Inputs.network_down i) →
      ∃ results',
        reply (link_details (PageData Inputs.page Cheerio.wrap) true network' [2; 1])
        = Sent 200 (Links results') ∧
        length results'
        = length (Cheerio.select (Cheerio.is_tag "a") Inputs.page) ∧
        ∀ i, i ≠ j → results' !! i = results !! i.
Proof.
  apply (link_details_one_record_per_anchor
           (PageData Inputs.page Cheerio.wrap) true Inputs.network_down [2; 1] Inputs.page).
  - reflexivity.
  - intros [|[|[|i]]] link Hi Hhref; vm_compute in Hi.
    + injection Hi as <-. vm_compute in Hhref. discriminate Hhref.
    + right. left.
    + left.
    + discriminate Hi.
Defined.

(** C5: the records come in document order, one per anchor, the record at
    position [i] being the one of the anchor at position [i]; two orders
    in which the probes settle give the same reply. *)
Theorem link_details_document_order
    fetched includeUhf network order order' doc :
  getPageContent fetched includeUhf = Some doc →
  every_probe_settles order (Cheerio.select (Cheerio.is_tag "a") doc) →
  every_probe_settles order' (Cheerio.select (Cheerio.is_tag "a") doc) →
  ∃ results,
    reply (link_details fetched includeUhf network order)
    = Sent 200 (Links results) ∧
    reply (link_details fetched includeUhf network order')
    = Sent 200 (Links results) ∧
    length results = length (Cheerio.select (Cheerio.is_tag "a") doc) ∧
    ∀ i link,
      Cheerio.select (Cheerio.is_tag "a") doc !! i = Some link →
      ∃ r, results !! i = Some r ∧
           resume (processLink link) (network i) = Return r.
Proof.
  intros Hdoc Hcover Hcover'.
  destruct (link_details_fulfilled _ _ network _ _ Hdoc Hcover)
    as (results & Hreply & Hlen & Hat).
  destruct (link_details_fulfilled _ _ network _ _ Hdoc Hcover')
    as (results' & Hreply' & Hlen' & Hat').
  exists results. repeat split; try done.
  rewrite Hreply'. do 2 f_equal. apply list_eq. intros i.
  destruct (Cheerio.select (Cheerio.is_tag "a") doc !! i) as [link|] eqn:Hl.
  - destruct (Hat _ _ Hl) as (r & -> & Hr).
    destruct (Hat' _ _ Hl) as (r' & -> & Hr'). congruence.
  - apply lookup_ge_None in Hl.
    rewrite !(proj2 (lookup_ge_None _ _)); [done|lia..].
Qed.

Lemma link_details_document_order_witness :
  ∃ results,
    reply (link_details (PageData Inputs.page Cheerio.wrap) false Inputs.network_mixed [1; 0])
    = Sent 200 (Links results) ∧
    reply (link_details (PageData Inputs.page Cheerio.wrap) false Inputs.network_mixed [0; 1])
    = Sent 200 (Links results) ∧
    length results
    = length (Cheerio.select (Cheerio.is_tag "a")
                (Cheerio.wrap
                   [Element "p" ∅
                      [Inputs.anchor_moved; Text " or "; Inputs.anchor_down]])) ∧
    ∀ i link,
      Cheerio.select (Cheerio.is_tag "a")
        (Cheerio.wrap
           [Element "p" ∅
              [Inputs.anchor_moved; Text " or "; Inputs.anchor_down]])
        !! i = Some link →
      ∃ r, results !! i = Some r ∧
           resume (processLink link) (Inputs.network_mixed i) = Return r.
Proof.
  apply (link_details_document_order
           (PageData Inputs.page Cheerio.wrap) false Inputs.network_mixed [1; 0] [0; 1]).
  - reflexivity.
  - intros [|[|i]] link Hi _; vm_compute in Hi.
    + right. left.
    + left.
    + discriminate Hi.
  - intros [|[|i]] link Hi _; vm_compute in Hi.
    + left.
    + right. left.
    + discriminate Hi.
Defined.

(** C9: when the page cannot be fetched the request fails as a whole, with
    status 500 and a message, no record and no probe; a fetched page is
    never answered with status 500. *)
Theorem document_unavailable_fails_request
    (message : string) (includeUhf : bool) (network : nat → Settled)
    (order : list nat) :
  getPageContent (PageFailed message) includeUhf = None ∧
  link_details (PageFailed message) includeUhf network order
  = {| reply := Sent 500 (Plain "Failed to fetch page content.");
       probes := [] |} ∧
  ∀ data reload body,
    reply (link_details (PageData data reload) includeUhf network order)
    ≠ Sent 500 body.
Proof.
  split; [done|]. split; [done|].
  intros data reload body. unfold link_details.
  destruct (getPageContent_data data reload includeUhf) as [doc ->].
  cbn [reply].
  by destruct (PromiseAll.run _ _ _).
Qed.

(** ** Selections in the document tree *)

Section selection.

Implicit Types (n : Node) (doc : Document) (P Q : Node → bool).

(** Induction on a node with the hypothesis on all its children. *)
Lemma Node_tree_ind (T : Node → Prop) :
  (∀ data, T (Text data)) →
  (∀ tagName attribs children,
     Forall T children → T (Element tagName attribs children)) →
  ∀ n, T n.
Proof.
  intros Htext Helem. fix IH 1. intros [data|tagName attribs children].
  - apply Htext.
  - apply Helem. induction children as [|c cs IHcs]; constructor.
    + apply IH.
    + apply IHcs.
Qed.

Lemma select_node_element P tagName attribs children :
  Cheerio.select_node P (Element tagName attribs children)
  = (if P (Element tagName attribs children)
     then [Element tagName attribs children] else [])
    ++ Cheerio.select P children.
Proof. reflexivity. Qed.

Lemma select_cons P n doc :
  Cheerio.select P (n :: doc)
  = Cheerio.select_node P n ++ Cheerio.select P doc.
Proof. reflexivity. Qed.

(** Every selected node is an element that matches the selector. *)
Lemma select_node_matches P n e :
  e ∈ Cheerio.select_node P n → P e = true ∧ ∃ t a cs, e = Element t a cs.
Proof.
  revert e. induction n as [data|tagName attribs children IH]
    using Node_tree_ind; intros e.
  - by intros ?%elem_of_nil.
  - rewrite select_node_element, elem_of_app. intros [He|He].
    + destruct (P (Element tagName attribs children)) eqn:HP.
      * apply list_elem_of_singleton in He as ->. eauto.
      * by apply elem_of_nil in He.
    + induction IH as [|c cs Hc _ IHcs]; [by apply elem_of_nil in He|].
      rewrite select_cons, elem_of_app in He. destruct He; eauto.
Qed.

Lemma select_matches P doc e :
  e ∈ Cheerio.select P doc → P e = true ∧ ∃ t a cs, e = Element t a cs.
Proof.
  induction doc as [|n doc IH]; [by intros ?%elem_of_nil|].
  rewrite select_cons, elem_of_app. intros [He|He]; [|by apply IH].
  by eapply select_node_matches.
Qed.

(** A selector with two parts selects what the first part selects and the
    second part keeps. *)
Lemma select_node_and P Q n :
  Cheerio.select_node (λ e, P e && Q e) n
  = filter (λ e, Q e) (Cheerio.select_node P n).
Proof.
  induction n as [data|tagName attribs children IH] using Node_tree_ind;
    [done|].
  rewrite !select_node_element, filter_app. f_equal.
  - destruct (P _), (Q _) eqn:HQ; simpl; try done.
    + by rewrite filter_cons_True by (by rewrite HQ).
    + by rewrite filter_cons_False by (rewrite HQ; intros []).
  - induction IH as [|c cs Hc _ IHcs]; [done|].
    by rewrite !select_cons, filter_app, Hc, IHcs.
Qed.

Lemma select_and P Q doc :
  Cheerio.select (λ e, P e && Q e) doc = filter (λ e, Q e) (Cheerio.select P doc).
Proof.
  induction doc as [|n doc IH]; [done|].
  by rewrite !select_cons, filter_app, select_node_and, IH.
Qed.

End selection.

(** ** [trim] *)

Section trimming.

Implicit Types (s t : string) (a : ascii).

Lemma app_assoc_string s t u : (s +:+ t) +:+ u = s +:+ (t +:+ u).
Proof. induction s as [|a s IH]; [done|]. by rewrite !app_cons, IH. Qed.

Lemma app_empty_r s : s +:+ "" = s.
Proof. induction s as [|a s IH]; [done|]. by rewrite app_cons, IH. Qed.

Lemma rev_app_append s t : String.rev_app s t = String.rev s +:+ t.
Proof.
  unfold String.rev. revert t. induction s as [|a s IH]; intros t; [done|].
  cbn [String.rev_app]. rewrite IH, (IH (String a "")).
  by rewrite app_assoc_string.
Qed.

Lemma rev_cons a s : String.rev (String a s) = String.rev s +:+ String a "".
Proof. unfold String.rev at 1. cbn [String.rev_app]. apply rev_app_append. Qed.

Lemma rev_append s t : String.rev (s +:+ t) = String.rev t +:+ String.rev s.
Proof.
  induction s as [|a s IH]; [by rewrite app_empty, app_empty_r|].
  by rewrite app_cons, !rev_cons, IH, app_assoc_string.
Qed.

Lemma rev_involutive s : String.rev (String.rev s) = s.
Proof.
  induction s as [|a s IH]; [done|]. by rewrite rev_cons, rev_append, IH.
Qed.

Lemma rev_empty_inv s : String.rev s = "" → s = "".
Proof. intros Hs. by rewrite <-(rev_involutive s), Hs. Qed.

End trimming.

Section stripping.

Variables (w1 : ascii → bool) (w2 : ascii → ascii → bool)
  (w3 : ascii → ascii → ascii → bool).

(** What [strip_front] leaves starts with none of the sequences, and it is
    the end of the string it was given. *)
Lemma strip_front_spec (s : string) :
  Js.starts_with w1 w2 w3 (Js.strip_front w1 w2 w3 s) = false ∧
  ∃ u, s = u +:+ Js.strip_front w1 w2 w3 s.
Proof.
  remember (String.length s) as n eqn:Hn. revert s Hn.
  induction n as [n IH] using lt_wf_ind. intros s ->.
  destruct s as [|a s1]; [by split; [|exists ""]|].
  cbn [Js.strip_front]. destruct (w1 a) eqn:H1.
  { destruct (IH _ (Nat.lt_succ_diag_r _) s1 eq_refl) as [Hs [u Hu]].
    split; [done|]. exists (String a u). by rewrite app_cons, <-Hu. }
  destruct s1 as [|b s2].
  { split; [|by exists ""]. cbn [Js.starts_with]. by rewrite H1. }
  destruct (w2 a b) eqn:H2.
  { destruct (IH (String.length s2)) with (s := s2) as [Hs [u Hu]];
      [simpl; lia|done|].
    split; [done|]. exists (String a (String b u)).
    by rewrite !app_cons, <-Hu. }
  destruct s2 as [|c s3].
  { split; [|by exists ""]. cbn [Js.starts_with]. by rewrite H1, H2. }
  destruct (w3 a b c) eqn:H3.
  { destruct (IH (String.length s3)) with (s := s3) as [Hs [u Hu]];
      [simpl; lia|done|].
    split; [done|]. exists (String a (String b (String c u))).
    by rewrite !app_cons, <-Hu. }
  split; [|by exists ""]. cbn [Js.starts_with]. by rewrite H1, H2, H3.
Qed.

Lemma strip_front_id (s : string) :
  Js.starts_with w1 w2 w3 s = false → Js.strip_front w1 w2 w3 s = s.
Proof.
  destruct s as [|a [|b [|c s3]]]; cbn [Js.starts_with Js.strip_front];
    rewrite ?orb_false_r, ?orb_false_iff; intros; destruct_and?;
    by repeat match goal with H : _ = false |- _ => rewrite H; clear H end.
Qed.

Lemma starts_with_app (s t : string) :
  Js.starts_with w1 w2 w3 s = true → Js.starts_with w1 w2 w3 (s +:+ t) = true.
Proof.
  destruct s as [|a [|b [|c s3]]]; rewrite ?app_cons, ?app_empty;
    cbn [Js.starts_with]; rewrite ?orb_false_r; try done.
  - by intros ->.
  - intros [->| ->]%orb_true_iff; [done|]. by rewrite orb_true_r.
Qed.

End stripping.

(** The result of [trim] has no white space at either end, and trimming it
    again changes nothing. *)
Lemma trim_trimmed (s : string) :
  starts_with_space (Js.trim s) = false ∧
  ends_with_space (Js.trim s) = false ∧
  Js.trim (Js.trim s) = Js.trim s.
Proof.
  assert (ends_with_space (Js.trim s) = false) as Hback.
  { unfold ends_with_space, Js.trim, Js.trimEnd. rewrite rev_involutive.
    apply strip_front_spec. }
  assert (starts_with_space (Js.trim s) = false) as Hfront.
  { destruct (starts_with_space (Js.trim s)) eqn:Hstart; [|done].
    pose proof (proj1 (strip_front_spec Js.white1 Js.white2 Js.white3 s))
      as Hx.
    fold (Js.trimStart s) in Hx.
    destruct (proj2 (strip_front_spec Js.white1 Js.white2_back Js.white3_back
                       (String.rev (Js.trimStart s)))) as [u Hu].
    apply (f_equal String.rev) in Hu.
    rewrite rev_involutive, rev_append in Hu.
    fold (Js.trimEnd (Js.trimStart s)) in Hu. fold (Js.trim s) in Hu.
    rewrite Hu in Hx.
    by rewrite (starts_with_app _ _ _ _ _ Hstart) in Hx. }
  split; [done|]. split; [done|].
  unfold Js.trim at 1, Js.trimStart.
  rewrite (strip_front_id _ _ _ _ Hfront).
  unfold Js.trimEnd. rewrite (strip_front_id _ _ _ _ Hback).
  apply rev_involutive.
Qed.



(** ** More on the records of [processLink] *)

(** The outcome of the probe touches the status, the final URL and the
    colours only: the type, the text, the label, the url and the target of
    the record are the same however the probe settles. *)
Theorem probe_leaves_description (link : Node) (s s' : Settled) :
  ∃ r r', resume (processLink link) s = Return r ∧
          resume (processLink link) s' = Return r' ∧
          linkType r = linkType r' ∧ linkText r = linkText r' ∧
          ariaLabel r = ariaLabel r' ∧ url r = url r' ∧ target r = target r'.
Proof.
  unfold processLink. destruct (Js.truthy _); cbn [resume].
  - destruct s as [resp|[[resp|]]|], s' as [resp'|[[resp'|]]|]; cbn [response];
      repeat match goal with
             | |- context [Js.strict_ne ?x ?y] => destruct (Js.strict_ne x y)
             end;
      do 2 eexists; (split; [reflexivity|]); (split; [reflexivity|]); done.
  - do 2 eexists. by repeat split.
Qed.

(** A status other than the default 200 is the status of a response the
    probe received, returned or carried by the thrown error; a colour other
    than "green" comes with a status of 300 or more. *)
Theorem status_comes_from_response (link : Node) (s : Settled) :
  ∃ r, resume (processLink link) s = Return r ∧
       (statusCode r ≠ 200%Z →
        Js.truthy (Cheerio.attr "href" link) = true ∧
        ∃ resp, (s = Resolved resp ∨ s = Rejected {| response := Some resp |}) ∧
                statusCode r = status resp) ∧
       (statusColor r ≠ "green" →
        (300 ≤ statusCode r)%Z ∧ statusCode r ≠ 200%Z).
Proof.
  assert (∀ c, getStatusColor c ≠ "green" → (300 ≤ c)%Z ∧ c ≠ 200%Z) as Hcol.
  { intros c. unfold getStatusColor. repeat case_decide; intros ?; try done; lia. }
  processLink_paths link s; (eexists; split; [reflexivity|]); record_fields;
    (split; [intros Hst|intros Hc]); try done; eauto.
Qed.

(** A non-empty [redirectedUrl] is the final URL of a response that the
    probe returned without throwing. *)
Theorem redirectedUrl_comes_from_returned_response (link : Node) (s : Settled) :
  ∃ r, resume (processLink link) s = Return r ∧
       (redirectedUrl r ≠ "" →
        Js.truthy (Cheerio.attr "href" link) = true ∧
        ∃ resp, s = Resolved resp ∧ redirectedUrl r = responseUrl resp).
Proof.
  processLink_paths link s; (eexists; split; [reflexivity|]); record_fields;
    intros Hr; try done; eauto.
Qed.

(** The enumerated fields of a record take their values in fixed sets: four
    link types, four status colours, and the two colours of the URLs are
    either both empty or "blue" and "purple". *)
Theorem record_fields_enumerated (link : Node) (s : Settled) :
  ∃ r, resume (processLink link) s = Return r ∧
       linkType r ∈ ["cta"; "button"; "link"; "unknown"] ∧
       statusColor r ∈ ["red"; "orange"; "yellow"; "green"] ∧
       (originalUrlColor r, redirectedUrlColor r)
         ∈ [("", ""); ("blue", "purple")].
Proof.
  assert (∀ c, getStatusColor c ∈ ["red"; "orange"; "yellow"; "green"])
    as Hcol.
  { intros c. unfold getStatusColor. repeat case_decide; set_solver. }
  assert (∀ cls,
    (if Js.includes cls "cta" then "cta"
     else if Js.includes cls "button" then "button"
     else if Js.includes cls "link" then "link" else "unknown")
    ∈ ["cta"; "button"; "link"; "unknown"]) as Htype.
  { intros cls. repeat destruct (Js.includes cls _); set_solver. }
  processLink_paths link s; (eexists; split; [reflexivity|]); record_fields;
    (split; [apply Htype|]); (split; [apply Hcol || set_solver|]); set_solver.
Qed.

(** The text of a record has no white space at either end. *)
Theorem linkText_is_trimmed (link : Node) (s : Settled) :
  ∃ r, resume (processLink link) s = Return r ∧
       starts_with_space (linkText r) = false ∧
       ends_with_space (linkText r) = false ∧
       Js.trim (linkText r) = linkText r.
Proof.
  processLink_paths link s; (eexists; split; [reflexivity|]); record_fields;
    apply trim_trimmed.
Qed.

(** ** The routes over one document *)

Section routes.

Implicit Types (doc data : Document) (fetched : PageFetch).

(** An anchor selected by ['a[href]'] is an anchor that has the attribute. *)
Lemma omap_href_a_href doc :
  omap (Cheerio.attr "href") (Cheerio.select Selector.a_href doc)
  = omap (Cheerio.attr "href") (Cheerio.select (Cheerio.is_tag "a") doc).
Proof.
  unfold Selector.a_href. rewrite select_and.
  induction (Cheerio.select (Cheerio.is_tag "a") doc) as [|el l IH]; [done|].
  rewrite filter_cons. cbn [omap list_omap].
  destruct (Cheerio.attr "href" el) as [href|] eqn:Hh.
  - assert (Selector.has_attr "href" el = true) as Hattr.
    { unfold Selector.has_attr. rewrite Hh. apply bool_decide_eq_true. by eexists. }
    rewrite decide_True by (by rewrite Hattr).
    cbn [omap list_omap]. rewrite Hh. by f_equal.
  - assert (Selector.has_attr "href" el = false) as Hattr.
    { unfold Selector.has_attr. rewrite Hh. apply bool_decide_eq_false.
      by intros [? [=]]. }
    by rewrite decide_False by (rewrite Hattr; intros []).
Qed.

Lemma startsWith_http (href : string) :
  JsOps.startsWith href "http" = true ↔ ∃ rest, href = "http" +:+ rest.
Proof. apply prefix_app. Qed.

Lemma unsettled_pending (ms : list (Async LinkRecord)) i href k :
  ms !! i = Some (AxiosGet href k) → 0 < unsettled ms.
Proof.
  revert i. induction ms as [|m ms IH]; intros [|i] Hi; simplify_eq/=.
  - lia.
  - specialize (IH _ Hi). destruct m; lia.
Qed.

End routes.

(** [/extract-urls] lists exactly the probes of [/link-details] for the
    same page whose href starts with "http", in the same order. *)
Theorem extract_urls_are_http_probes data reload includeUhf network order :
  extract_urls (PageData data reload) includeUhf
  = Success
      (filter (λ href, JsOps.startsWith href "http")
         (probes (link_details (PageData data reload) includeUhf network order))).
Proof.
  destruct (getPageContent_data data reload includeUhf) as [doc Hdoc].
  rewrite (link_details_probes _ _ _ _ _ Hdoc).
  unfold extract_urls. rewrite Hdoc. f_equal.
  rewrite omap_href_a_href.
  induction (Cheerio.select (Cheerio.is_tag "a") doc) as [|el l IH]; [done|].
  cbn [omap list_omap]. destruct (Cheerio.attr "href" el) as [[|a h]|].
  - cbn [Js.truthy]. by rewrite filter_cons_False by (intros []).
  - cbn [Js.truthy]. by rewrite !filter_cons, IH.
  - done.
Qed.

(** A URL is listed by [/extract-urls] exactly when it starts with "http"
    and is the href of an anchor of the document. *)
Theorem extract_urls_lists_http_hrefs data reload includeUhf :
  ∃ doc urls,
    getPageContent (PageData data reload) includeUhf = Some doc ∧
    extract_urls (PageData data reload) includeUhf = Success urls ∧
    ∀ u, u ∈ urls ↔
         (∃ rest, u = "http" +:+ rest) ∧
         ∃ el, el ∈ Cheerio.select (Cheerio.is_tag "a") doc ∧
               Cheerio.attr "href" el = Some u.
Proof.
  destruct (getPageContent_data data reload includeUhf) as [doc Hdoc].
  exists doc. eexists. split; [done|]. unfold extract_urls. rewrite Hdoc.
  split; [reflexivity|]. intros u.
  rewrite omap_href_a_href, list_elem_of_filter, list_elem_of_omap.
  by rewrite <-startsWith_http, Is_true_true.
Qed.

Lemma omap_length_le {A B} (f : A → option B) (l : list A) :
  length (omap f l) ≤ length l.
Proof.
  induction l as [|x l IH]; [done|]. cbn [omap list_omap].
  destruct (f x); simpl; lia.
Qed.

Lemma or_default_not_empty (x : option string) (d : string) :
  d ≠ "" → Js.or_default x d ≠ "".
Proof. by destruct x as [[|a s]|]. Qed.

(** [/image-details] reports the images that have a non-empty [src], no
    more than the [img] elements of the document: the name of an entry is
    that [src], its [alt] is never empty, and it is "No Alt Text" whenever
    [hasAlt] is false and the [alt] attribute otherwise. *)
Theorem image_details_entries data reload includeUhf :
  ∃ doc images,
    getPageContent (PageData data reload) includeUhf = Some doc ∧
    image_details (PageData data reload) includeUhf = Success images ∧
    length images ≤ length (Cheerio.select (Cheerio.is_tag "img") doc) ∧
    (∀ image, image ∈ images →
       imageName image ≠ "" ∧ alt image ≠ "" ∧
       (hasAlt image = false → alt image = "No Alt Text") ∧
       ∃ element,
         element ∈ Cheerio.select (Cheerio.is_tag "img") doc ∧
         Cheerio.attr "src" element = Some (imageName image) ∧
         (hasAlt image = true →
          Cheerio.attr "alt" element = Some (alt image))) ∧
    (∀ element src,
       element ∈ Cheerio.select (Cheerio.is_tag "img") doc →
       Cheerio.attr "src" element = Some src → src ≠ "" →
       ∃ image, image ∈ images ∧ imageName image = src).
Proof.
  destruct (getPageContent_data data reload includeUhf) as [doc Hdoc].
  exists doc. eexists. split; [done|]. unfold image_details. rewrite Hdoc.
  split; [reflexivity|]. split; [apply omap_length_le|]. split.
  - intros image (element & Hin & Hentry)%list_elem_of_omap.
    unfold image_entry in Hentry.
    destruct (Cheerio.attr "src" element) as [[|a src]|] eqn:Hsrc;
      cbn [Js.truthy default] in Hentry; simplify_eq.
    cbn [imageName alt hasAlt].
    split; [done|]. split; [by apply or_default_not_empty|].
    split.
    + by destruct (Cheerio.attr "alt" element) as [[|b t]|].
    + exists element. split; [done|]. split; [done|].
      by destruct (Cheerio.attr "alt" element) as [[|b t]|].
  - intros element src Hin Hsrc Hne.
    destruct src as [|a src]; [done|]. eexists. split.
    + apply list_elem_of_omap. exists element. split; [done|].
      unfold image_entry. rewrite Hsrc. reflexivity.
    + done.
Qed.

(** [/page-properties] reports the meta elements that have a non-empty
    [name] or, failing that, a non-empty [property]: the name of an entry is
    never empty, [name] wins over [property], and the content is
    "No Content" when the attribute is absent or empty. *)
Theorem page_properties_entries data reload includeUhf :
  ∃ doc metaTags,
    getPageContent (PageData data reload) includeUhf = Some doc ∧
    page_properties (PageData data reload) includeUhf = Success metaTags ∧
    length metaTags ≤ length (Cheerio.select (Cheerio.is_tag "meta") doc) ∧
    (∀ tag, tag ∈ metaTags →
       name tag ≠ "" ∧ content tag ≠ "" ∧
       ∃ meta,
         meta ∈ Cheerio.select (Cheerio.is_tag "meta") doc ∧
         (Cheerio.attr "name" meta = Some (name tag) ∨
          Js.truthy (Cheerio.attr "name" meta) = false ∧
          Cheerio.attr "property" meta = Some (name tag)) ∧
         (Js.truthy (Cheerio.attr "content" meta) = true →
          Cheerio.attr "content" meta = Some (content tag)) ∧
         (Js.truthy (Cheerio.attr "content" meta) = false →
          content tag = "No Content")) ∧
    (∀ meta n,
       meta ∈ Cheerio.select (Cheerio.is_tag "meta") doc → n ≠ "" →
       Cheerio.attr "name" meta = Some n ∨
       Js.truthy (Cheerio.attr "name" meta) = false ∧
       Cheerio.attr "property" meta = Some n →
       ∃ tag, tag ∈ metaTags ∧ name tag = n).
Proof.
  destruct (getPageContent_data data reload includeUhf) as [doc Hdoc].
  exists doc. eexists. split; [done|]. unfold page_properties. rewrite Hdoc.
  split; [reflexivity|]. split; [apply omap_length_le|]. split.
  - intros tag (meta & Hin & Hentry)%list_elem_of_omap.
    unfold meta_entry, JsOps.or_else in Hentry.
    assert (content tag = Js.or_default (Cheerio.attr "content" meta) "No Content"
            ∧ name tag ≠ "" ∧
            (Cheerio.attr "name" meta = Some (name tag) ∨
             Js.truthy (Cheerio.attr "name" meta) = false ∧
             Cheerio.attr "property" meta = Some (name tag)))
      as (Hcontent & Hname & Hfrom).
    { destruct (Cheerio.attr "name" meta) as [[|a n]|];
        cbn [Js.truthy] in Hentry;
        try (destruct (Cheerio.attr "property" meta) as [[|b q]|];
             cbn [Js.truthy] in Hentry);
        simplify_eq; cbn [name content default]; auto. }
    split; [done|]. rewrite Hcontent.
    split; [by apply or_default_not_empty|].
    exists meta. split; [done|]. split; [done|].
    by destruct (Cheerio.attr "content" meta) as [[|c t]|].
  - intros meta n Hin Hne Hfrom. destruct n as [|a n]; [done|].
    assert (∃ tag, meta_entry meta = Some tag ∧ name tag = String a n)
      as (tag & Hentry & Hname).
    { unfold meta_entry, JsOps.or_else.
      destruct Hfrom as [Hn|[Hn Hp]]; rewrite Hn, ?Hp; by eexists. }
    exists tag. split; [|done].
    apply list_elem_of_omap. by exists meta.
Qed.

(** [/heading-hierarchy] reports one entry per heading element, in document
    order: the level is one of h1 to h6 and the text has no white space at
    either end. *)
Theorem heading_hierarchy_entries data reload includeUhf :
  ∃ doc headings,
    getPageContent (PageData data reload) includeUhf = Some doc ∧
    heading_hierarchy (PageData data reload) includeUhf = Success headings ∧
    length headings = length (Cheerio.select Selector.heading doc) ∧
    level <$> headings
    = Selector.tagName_of <$> Cheerio.select Selector.heading doc ∧
    ∀ h, h ∈ headings →
      level h ∈ ["h1"; "h2"; "h3"; "h4"; "h5"; "h6"] ∧
      starts_with_space (text h) = false ∧
      ends_with_space (text h) = false.
Proof.
  destruct (getPageContent_data data reload includeUhf) as [doc Hdoc].
  exists doc. eexists. split; [done|]. unfold heading_hierarchy. rewrite Hdoc.
  split; [reflexivity|]. split; [by rewrite length_fmap|].
  split; [by rewrite <-list_fmap_compose|].
  intros h (e & -> & Hin)%list_elem_of_fmap.
  apply select_matches in Hin as (Hmatch & t & a & cs & ->).
  split; [|split; apply trim_trimmed].
  cbn [heading_entry level Selector.tagName_of].
  unfold Selector.heading, Cheerio.is_tag in Hmatch.
  repeat (apply orb_true_iff in Hmatch as [Hmatch|Hmatch]);
    apply bool_decide_eq_true in Hmatch as ->; set_solver.
Qed.

(** The four routes answer a page that could not be fetched with status 500
    and the same message, and answer every fetched page with a list. *)
Theorem routes_fail_only_without_page (includeUhf : bool) :
  (∀ message,
     extract_urls (PageFailed message) includeUhf
     = Failure 500 "Failed to fetch page content." ∧
     image_details (PageFailed message) includeUhf
     = Failure 500 "Failed to fetch page content." ∧
     page_properties (PageFailed message) includeUhf
     = Failure 500 "Failed to fetch page content." ∧
     heading_hierarchy (PageFailed message) includeUhf
     = Failure 500 "Failed to fetch page content.") ∧
  (∀ data reload,
     (∃ urls, extract_urls (PageData data reload) includeUhf = Success urls) ∧
     (∃ images, image_details (PageData data reload) includeUhf = Success images) ∧
     (∃ metaTags,
        page_properties (PageData data reload) includeUhf = Success metaTags) ∧
     (∃ headings,
        heading_hierarchy (PageData data reload) includeUhf = Success headings)).
Proof.
  split; [done|]. intros data reload.
  unfold extract_urls, image_details, page_properties, heading_hierarchy.
  destruct (getPageContent_data data reload includeUhf) as [doc ->].
  repeat split; by eexists.
Qed.

(** A page without primary area is an empty document when the chrome is
    left out: every route answers with an empty list, and [/link-details]
    sends no probe and replies at once. *)
Theorem no_primary_area_empty_reports data reload network order :
  Cheerio.select Selector.primary_area data = [] →
  getPageContent (PageData data reload) false = Some Cheerio.empty_document ∧
  link_details (PageData data reload) false network order
  = {| reply := Sent 200 (Links []); probes := [] |} ∧
  extract_urls (PageData data reload) false = Success [] ∧
  image_details (PageData data reload) false = Success [] ∧
  page_properties (PageData data reload) false = Success [] ∧
  heading_hierarchy (PageData data reload) false = Success [].
Proof.
  intros Hnone.
  assert (getPageContent (PageData data reload) false
          = Some Cheerio.empty_document) as Hdoc.
  { cbn [getPageContent negb]. fold Selector.primary_area.
    change (λ n, Selector.primary_area n) with Selector.primary_area.
    by rewrite Hnone. }
  split; [done|].
  unfold link_details, extract_urls, image_details, page_properties,
    heading_hierarchy.
  rewrite Hdoc. split; [|by repeat split].
  change (Cheerio.select (Cheerio.is_tag "a") Cheerio.empty_document)
    with (@nil Node).
  cbn [fmap list_fmap].
  assert (PromiseAll.finish [] network order = observed [] []) as Hfinish.
  { unfold PromiseAll.finish. rewrite start_observed by constructor.
    cbn [omap list_omap]. induction order as [|i order IH]; [done|].
    cbn [foldl]. by rewrite settle_observed by constructor. }
  unfold PromiseAll.run. by rewrite Hfinish.
Qed.

Lemma no_primary_area_empty_reports_witness :
  getPageContent (PageData Pages.article Cheerio.wrap) false
  = Some Cheerio.empty_document ∧
  link_details (PageData Pages.article Cheerio.wrap) false
    Inputs.network_down [0]
  = {| reply := Sent 200 (Links []); probes := [] |} ∧
  extract_urls (PageData Pages.article Cheerio.wrap) false = Success [] ∧
  image_details (PageData Pages.article Cheerio.wrap) false = Success [] ∧
  page_properties (PageData Pages.article Cheerio.wrap) false = Success [] ∧
  heading_hierarchy (PageData Pages.article Cheerio.wrap) false = Success [].
Proof.
  apply (no_primary_area_empty_reports Pages.article Cheerio.wrap
           Inputs.network_down [0]).
  vm_compute. reflexivity.
Defined.

(** The route waits for every probe: as long as the probe of one anchor has
    not settled, nothing is sent, however the others settled. *)
Theorem unsettled_probe_blocks_reply
    fetched includeUhf network order doc i link :
  getPageContent fetched includeUhf = Some doc →
  Cheerio.select (Cheerio.is_tag "a") doc !! i = Some link →
  Js.truthy (Cheerio.attr "href" link) = true →
  i ∉ order →
  reply (link_details fetched includeUhf network order) = NoReply.
Proof.
  intros Hdoc Hi Hhref Hout. unfold link_details. rewrite Hdoc. cbn [reply].
  set (ms := processLink <$> Cheerio.select (Cheerio.is_tag "a") doc).
  assert (Forall one_shot ms) as Hms.
  { apply Forall_fmap, Forall_forall. intros l _. apply processLink_one_shot. }
  unfold PromiseAll.run, PromiseAll.finish.
  rewrite start_observed, settle_all_observed by done.
  assert (∃ href k, settle_all network order ms !! i = Some (AxiosGet href k))
    as (href & k & Hpending).
  { rewrite (settle_all_lookup _ _ _ _ (processLink link)); [|done|].
    - rewrite bool_decide_eq_false_2 by done.
      unfold processLink. rewrite Hhref. by do 2 eexists.
    - unfold ms. by rewrite list_lookup_fmap, Hi. }
  apply unsettled_pending in Hpending.
  unfold PromiseAll.result, observed.
  cbn [PromiseAll.rejection PromiseAll.remaining].
  by destruct (unsettled _); [lia|].
Qed.

Lemma unsettled_probe_blocks_reply_witness :
  reply (link_details (PageData Inputs.page Cheerio.wrap) true Inputs.network_mixed [1])
  = NoReply.
Proof.
  apply (unsettled_probe_blocks_reply (PageData Inputs.page Cheerio.wrap) true
           Inputs.network_mixed [1] Inputs.page 2 Inputs.anchor_down).
  - reflexivity.
  - reflexivity.
  - reflexivity.
  - vm_compute. intros Hin. inversion Hin as [|? ? ? Hin']. inversion Hin'.
Defined.

(** [/link-details] sends at most one probe per anchor: in the whole run,
    however the probes settle, the requests sent are one for each anchor
    with a non-empty href, to that href, and none for the others. *)
Theorem one_probe_per_href data reload includeUhf network order :
  ∃ doc,
    getPageContent (PageData data reload) includeUhf = Some doc ∧
    probes (link_details (PageData data reload) includeUhf network order)
    = omap (λ el, if Js.truthy (Cheerio.attr "href" el)
                  then Cheerio.attr "href" el else None)
        (Cheerio.select (Cheerio.is_tag "a") doc) ∧
    length (probes (link_details (PageData data reload) includeUhf network order))
    = length (filter (λ el, Js.truthy (Cheerio.attr "href" el))
                (Cheerio.select (Cheerio.is_tag "a") doc)) ∧
    length (probes (link_details (PageData data reload) includeUhf network order))
    ≤ length (Cheerio.select (Cheerio.is_tag "a") doc) ∧
    ∀ u, u ∈ probes (link_details (PageData data reload) includeUhf network order) ↔
         u ≠ "" ∧
         ∃ el, el ∈ Cheerio.select (Cheerio.is_tag "a") doc ∧
               Cheerio.attr "href" el = Some u.
Proof.
  destruct (getPageContent_data data reload includeUhf) as [doc Hdoc].
  exists doc. split; [done|].
  rewrite (link_details_probes _ _ _ _ _ Hdoc).
  split; [done|]. split; [|split; [apply omap_length_le|]].
  - induction (Cheerio.select (Cheerio.is_tag "a") doc) as [|el l IH];
      [done|].
    cbn [omap list_omap]. rewrite filter_cons.
    destruct (Cheerio.attr "href" el) as [[|a h]|]; cbn [Js.truthy].
    + by rewrite decide_False by (intros []).
    + rewrite decide_True by done. simpl. by rewrite IH.
    + by rewrite decide_False by (intros []).
  - intros u. rewrite list_elem_of_omap. split.
    + intros (el & Hin & Hu).
      destruct (Cheerio.attr "href" el) as [[|a h]|] eqn:Hh;
        cbn [Js.truthy] in Hu; simplify_eq. eauto.
    + intros (Hne & el & Hin & Hu). exists el. split; [done|].
      rewrite Hu. by destruct u.
Qed.
